(** * wordvis: the taxonomy sunburst generator (src/wordvis.py)

    A shallow embedding of the weighted tree ([Tree.add]), the radial
    partition ([Rings]), the label placement ([CircleDiagram._draw_clades])
    and the document writer ([Svg.save]), followed by the properties of
    the specification that concern them.

    Conventions of the embedding.
    - Python [int] is [Z]; Python [float] is computed in exact rational
      arithmetic [Q] (the script runs under [from __future__ import division],
      so [/] is true division and raises [ZeroDivisionError] on a zero
      divisor).
    - A Python [dict] keyed by strings is a [gmap string _], a [set] of
      strings a [gset string]; [sorted] is a merge sort by the
      lexicographic order on strings.
    - A call that may raise returns a [result]; the methods of [Rings],
      which update [self.tiers], run in a state-and-exception monad. *)

From stdpp Require Import gmap strings list fin_maps sorting.
From Stdlib Require Import ZArith QArith Lia Lqa Ascii DecimalString.

#[local] Set Warnings "-register-all,-clear-no-such-hyp".
Open Scope Z_scope.

(** ** Module constants *)

Definition START : string := "^".
Definition END : string := "$".
Definition SCALE : Z := 1.
Definition MAX_RINGS : Z := 20.
Definition RING_DEPTH : Z := 100 * SCALE.
Definition LETTER_SPACING : Z := 10 * SCALE.
Definition LINE_COLOUR : string := "white".
Definition FONT_COLOUR : string := "#555555".
Definition FONT_NAME : string := "Helvetica".
Definition COLOUR_LIGHTNESS : Q := 85 # 100.

(** ** Exceptions *)

Inductive exn :=
| AttributeError
| ZeroDivisionError
| KeyError
| NameError
| ValueError.

Inductive result (A : Type) :=
| Return (a : A)
| Raise (e : exn).
Arguments Return {A} a.
Arguments Raise {A} e.

Definition rbind {A B} (r : result A) (k : A → result B) : result B :=
  match r with
  | Return a => k a
  | Raise e => Raise e
  end.

(** ** Node, EndNode and Tree *)

Inductive class := NodeClass | EndNodeClass.

Inductive node := mk_node {
  cls : class;
  clade : string;
  count : Z;
  children : gmap string node
}.

(** [Node(clade)] *)
Definition Node (clade : string) : node := mk_node NodeClass clade 0 ∅.

(** [EndNode()] *)
Definition EndNode : node := mk_node EndNodeClass END 1 ∅.

Definition isinstance_EndNode (n : node) : bool :=
  match cls n with EndNodeClass => true | NodeClass => false end.

Record Tree := mk_Tree {
  root : node;
  clades : gset string
}.

(** [Tree()] *)
Definition Tree_init : Tree := mk_Tree (Node START) ∅.

(** The inner function of [Tree.add].  The child reached by [first_clade]
    is updated in place by the recursive call; here the updated child is
    stored back under its key. *)
Fixpoint add_clades (parent_node : node) (clades : list string) (cnt : Z) : node :=
  let total := count parent_node + cnt in
  match clades with
  | [] =>
      mk_node (cls parent_node) (clade parent_node) total
              (<[END := EndNode]> (children parent_node))
  | first_clade :: rest =>
      let child :=
        match children parent_node !! first_clade with
        | Some c => c
        | None => Node first_clade
        end in
      mk_node (cls parent_node) (clade parent_node) total
              (<[first_clade := add_clades child rest cnt]> (children parent_node))
  end.

Definition add (t : Tree) (taxonomy : list string) (cnt : Z) : Tree :=
  mk_Tree (add_clades (root t) taxonomy cnt)
          (clades t ∪ list_to_set taxonomy).

(** The loop of the script over the parsed records. *)
Abbreviation record := (list string * Z)%type.

Definition build_from (t : Tree) (records : list record) : Tree :=
  fold_left (λ t r, add t r.1 r.2) records t.

Definition build (records : list record) : Tree := build_from Tree_init records.

(** Following a sequence of keys down the [children] dictionaries. *)
Fixpoint descend (path : list string) (n : node) : option node :=
  match path with
  | [] => Some n
  | key :: path' =>
      match children n !! key with
      | Some c => descend path' c
      | None => None
      end
  end.

(** No path of the records uses the key of the end marker as a label. *)
Definition end_free (records : list record) : Prop :=
  Forall (λ r : record, END ∉ r.1) records.

(** Total weight of the records whose path is exactly [path]. *)
Definition direct_weight (path : list string) (records : list record) : Z :=
  foldr (λ r acc, if decide (r.1 = path) then r.2 + acc else acc) 0 records.

Definition weight_step (key : string) (c : node) (acc : Z) : Z :=
  if decide (key = END) then acc else count c + acc.

(** Sum of the counts of the children of a node, the end marker (the entry
    under the key [END]) left out. *)
Definition child_weights (n : node) : Z :=
  map_fold weight_step 0 (children n).

(** Sum of the input weights. *)
Definition total_weight (records : list record) : Z :=
  foldr (λ r acc, r.2 + acc) 0 records.

(** ** Rings: the radial partition *)

(** Attribute values of a node object. *)
Inductive pyval :=
| PyStr (s : string)
| PyInt (z : Z)
| PyDict (d : gmap string node).

(** [node.name]: instances of [Node] and of [EndNode] carry exactly the
    attributes [clade], [count] and [children] set by their constructors. *)
Definition getattr (n : node) (name : string) : result pyval :=
  if decide (name = "clade") then Return (PyStr (clade n))
  else if decide (name = "count") then Return (PyInt (count n))
  else if decide (name = "children") then Return (PyDict (children n))
  else Raise AttributeError.

(** [a / b] for a number [a] and an integer [b], under true division. *)
Definition truediv (a : Q) (b : Z) : result Q :=
  if decide (b = 0) then Raise ZeroDivisionError else Return (a / inject_Z b)%Q.

(** [sorted(d.keys())] *)
Definition sorted_keys {A} (d : gmap string A) : list string :=
  merge_sort String.le (map_to_list d).*1.

(** An element [[label, size, offset]] of a tier, and [self.tiers]. *)
Abbreviation ring_entry := (pyval * Q * Q)%type.
Abbreviation tiers := (gmap nat (list ring_entry)).

(** Methods of [Rings] read and update [self.tiers] and may raise. *)
Definition M (A : Type) : Type := tiers → result (A * tiers).

#[export] Instance result_ret : MRet result := λ A a, Return a.
#[export] Instance result_bind : MBind result := λ A B k r, rbind r k.

#[export] Instance M_ret : MRet M := λ A a s, Return (a, s).
#[export] Instance M_bind : MBind M := λ A B k m s,
  match m s with
  | Return (a, s') => k a s'
  | Raise e => Raise e
  end.

Definition lift {A} (r : result A) : M A := λ s,
  match r with
  | Return a => Return (a, s)
  | Raise e => Raise e
  end.

Definition get_tiers : M tiers := λ s, Return (s, s).
Definition put_tiers (s : tiers) : M unit := λ _, Return ((), s).

(** [self.tiers[depth]] *)
Definition getitem_tier (depth : nat) : M (list ring_entry) :=
  s ← get_tiers;
  match s !! depth with
  | Some tier => mret tier
  | None => lift (Raise KeyError)
  end.

Definition _on_node (n : node) (depth : nat) (size offset : Q) : M unit :=
  if isinstance_EndNode n then mret ()
  else
    s ← get_tiers;
    (if decide (is_Some (s !! depth)) then mret ()
     else put_tiers (<[depth := []]> s));;
    tier ← getitem_tier depth;
    letter ← lift (getattr n "letter");
    s ← get_tiers;
    put_tiers (<[depth := tier ++ [(letter, size, offset)]]> s).

(** The [for] loop of [_dfs].  [recurse] holds, under each key, the call
    of [self._dfs] on the child stored under that key. *)
Section dfs_loop.
Context (recurse : gmap string (nat → Q → Q → M unit)).
Context (node_children : gmap string node) (node_count : Z).
Context (depth : nat) (node_size : Q).

Fixpoint dfs_loop (keys : list string) (child_offset : Q) : M unit :=
  match keys with
  | [] => mret ()
  | key :: keys' =>
      match node_children !! key, recurse !! key with
      | Some child, Some dfs_child =>
          child_size ← lift (truediv (node_size * inject_Z (count child)) node_count);
          dfs_child (S depth) child_size child_offset;;
          dfs_loop keys' (child_offset + child_size)%Q
      | _, _ => lift (Raise KeyError)
      end
  end.
End dfs_loop.

Fixpoint _dfs (n : node) : nat → Q → Q → M unit :=
  let recurse := _dfs <$> children n in
  λ depth node_size offset,
    dfs_loop recurse (children n) (count n) depth node_size
             (sorted_keys (children n)) offset;;
    _on_node n depth node_size offset.

(** [Rings(tree)]: the tiers once the constructor has returned. *)
Definition Rings (t : Tree) : result tiers :=
  match _dfs (root t) 0%nat 1%Q 0%Q ∅ with
  | Return (_, s) => Return s
  | Raise e => Raise e
  end.

Definition depth_le (a b : nat * list ring_entry) : Prop := (a.1 ≤ b.1)%nat.

#[export] Instance depth_le_dec : RelDecision depth_le.
Proof. intros a b. unfold depth_le. apply _. Defined.

(** [Rings.get]: the tiers by increasing depth (the order in which CPython
    lists a dictionary whose keys are the integers [0..n-1]), the first
    one dropped. *)
Definition get (s : tiers) : list (list ring_entry) :=
  tail (merge_sort depth_le (map_to_list s)).*2.

(** The key, the size and the offset that each iteration of the loop of
    [_dfs] computes for a child. *)
Section child_spans.
Context (node_children : gmap string node) (node_count : Z) (node_size : Q).

Fixpoint child_spans (keys : list string) (child_offset : Q)
    : result (list (string * Q * Q)) :=
  match keys with
  | [] => mret []
  | key :: keys' =>
      match node_children !! key with
      | Some child =>
          child_size ← truediv (node_size * inject_Z (count child)) node_count;
          rest ← child_spans keys' (child_offset + child_size)%Q;
          mret ((key, child_size, child_offset) :: rest)
      | None => Raise KeyError
      end
  end.
End child_spans.

Definition spans_of (n : node) (node_size offset : Q) : result (list (string * Q * Q)) :=
  child_spans (children n) (count n) node_size (sorted_keys (children n)) offset.










(** ** Strings *)

(** [s] without its prefix [p], when it starts with [p]. *)
Fixpoint strip_prefix (p s : string) : option string :=
  match p, s with
  | EmptyString, _ => Some s
  | String a p', String b s' => if decide (a = b) then strip_prefix p' s' else None
  | String _ _, EmptyString => None
  end.

(** The text before and the text after the first occurrence of [sep]. *)
Fixpoint find_sep (sep s : string) : option (string * string) :=
  match strip_prefix sep s with
  | Some rest => Some (EmptyString, rest)
  | None =>
      match s with
      | EmptyString => None
      | String c s' =>
          match find_sep sep s' with
          | Some (before, after) => Some (String c before, after)
          | None => None
          end
      end
  end.

(** The pieces of [s] between the occurrences of a separator that is not
    empty, found from left to right.  Each occurrence takes at least one
    character, so a fuel of [length s] is never used up. *)
Fixpoint split_fuel (fuel : nat) (sep s : string) : list string :=
  match find_sep sep s with
  | None => [s]
  | Some (before, after) =>
      match fuel with
      | O => [before; after]
      | S fuel' => before :: split_fuel fuel' sep after
      end
  end.

(** [s.split(sep)] *)
Definition split (sep s : string) : result (list string) :=
  if decide (sep = EmptyString) then Raise ValueError
  else Return (split_fuel (String.length s) sep s).

(** [s.replace(old, new)], for the markers of the template, none empty. *)
Definition replace (old new s : string) : string :=
  String.concat new (split_fuel (String.length s) old s).

(** [str(n)] for an integer. *)
Definition str_int (n : Z) : string := NilZero.string_of_int (Z.to_int n).

(** [sep] occurs in [s]. *)
Definition occurs (sep s : string) : Prop :=
  ∃ before after, s = before +:+ sep +:+ after.


Definition upper_ascii (c : ascii) : ascii :=
  let n := nat_of_ascii c in
  if decide (97 ≤ n ≤ 122)%nat then ascii_of_nat (n - 32) else c.

(** [s.upper()], for labels written in ASCII. *)
Fixpoint upper (s : string) : string :=
  match s with
  | EmptyString => EmptyString
  | String c s' => String (upper_ascii c) (upper s')
  end.

(** ** Svg: the chart document *)

Record Svg := mk_Svg {
  template : string;
  styles : list string;
  content : list string
}.

(** [Svg(height, width)]; [template_file] is the text of [template.svg]. *)
Definition Svg_init (template_file : string) (height width : Z) : Svg :=
  mk_Svg (replace "%width%" (str_int width)
            (replace "%height%" (str_int height) template_file))
         [] [].

(** [Svg.add_styles]; [decls] lists the items of the dictionary in the
    order in which [iteritems] yields them. *)
Definition add_styles (svg : Svg) (selector : string) (decls : list (string * string)) : Svg :=
  let styles_txt := (λ kv, kv.1 +:+ ":" +:+ kv.2 +:+ ";") <$> decls in
  mk_Svg (template svg)
         (styles svg ++ [selector +:+ "{" +:+ String.concat "" styles_txt +:+ "}"])
         (content svg).

Definition dquote : string := String "034" EmptyString.

(** The element written by [Svg.add_text], its arguments already formatted. *)
Definition text_element (x y text : string) : string :=
  "<text x=" +:+ dquote +:+ x +:+ dquote +:+ " y=" +:+ dquote +:+ y +:+ dquote +:+ ">"
  +:+ text +:+ "</text>".

(** [Svg.save]: the text written to the output file.  Both [split]s come
    before the file is opened. *)
Definition Svg_save (svg : Svg) : result string :=
  parts ← split "%style%" (template svg);
  match parts with
  | [part1; tmp] =>
      parts' ← split "%substance%" tmp;
      match parts' with
      | [part2; part3] =>
          Return (part1 +:+ String.concat "" (styles svg) +:+ part2
                  +:+ String.concat "" (content svg) +:+ part3)
      | _ => Raise ValueError
      end
  | _ => Raise ValueError
  end.

(** ** CircleDiagram *)

Record CircleDiagram := mk_CircleDiagram {
  ring_count : Z;
  svg : Svg;
  center : Q * Q;
  last_clade_pos : Q * Q;
  diagram_clades : list string;
  clade_colours : gmap string string
}.

(** [RING_DEPTH * (level + 0.5)], the radius on which [_draw_clades] puts
    the labels of a ring. *)
Definition ring_radius (level : Z) : Q :=
  (inject_Z RING_DEPTH * (inject_Z level + (1 # 2)))%Q.

(** A candidate label: [(clade, end_angle - start_angle, x, y)]. *)
Abbreviation clade_coord := (string * Q * Q * Q)%type.

(** Squared distance between two anchors. *)
Definition dist2 (a b : Q * Q) : Q := ((a.1 - b.1) ^ 2 + (a.2 - b.2) ^ 2)%Q.

(** [is_room(x, y)] of [_draw_clades], for the current list [occupied]. *)
Fixpoint is_room (occupied : list (Q * Q)) (x y : Q) : bool :=
  match occupied with
  | [] => true
  | (ox, oy) :: occupied' =>
      if Qlt_le_dec ((ox - x) ^ 2 + (oy - y) ^ 2) (inject_Z (LETTER_SPACING ^ 2))
      then false
      else is_room occupied' x y
  end.

(** [clade_coords.sort(key=lambda n: n[1], reverse=True)]: the stable sort
    by decreasing size. *)
Fixpoint insert_by_size (c : clade_coord) (l : list clade_coord) : list clade_coord :=
  match l with
  | [] => [c]
  | d :: l' =>
      if Qle_bool d.1.1.2 c.1.1.2 then c :: l else d :: insert_by_size c l'
  end.

Definition sort_by_size (l : list clade_coord) : list clade_coord :=
  foldr insert_by_size [] l.

(** [math.sin], [math.cos], the formatting of a float by [format],
    [colorsys.hls_to_rgb] and ['%02x' % x] belong to the Python library. *)
Section drawing.
Variables sin cos : Q → Q.
Variable str_float : Q → string.
Variable hls_to_rgb : Q → Q → Q → Q * Q * Q.
Variable hex2 : Q → string.

(** [Svg.add_text] *)
Definition add_text (svg : Svg) (text : string) (x y : Q) : Svg :=
  mk_Svg (template svg) (styles svg)
         (content svg ++ [text_element (str_float x) (str_float y) text]).

(** [l.index(x)] *)
Fixpoint index (l : list string) (x : string) : result Z :=
  match l with
  | [] => Raise ValueError
  | y :: l' => if decide (y = x) then Return 0 else i ← index l' x; Return (i + 1)
  end.

Definition _colour_for_clade (clades : list string) (clade : string) : result string :=
  clade_index ← index clades clade;
  let clade_count := Z.of_nat (length clades) in
  hue ← truediv (inject_Z clade_index) clade_count;
  let '(r, g, b) := hls_to_rgb hue COLOUR_LIGHTNESS 1 in
  Return ("#" +:+ String.concat "" (hex2 <$> [r * 255; g * 255; b * 255]%Q)).

(** [map(self._colour_for_clade, clades)] *)
Fixpoint colours (all_clades clades : list string) : result (list string) :=
  match clades with
  | [] => Return []
  | clade :: clades' =>
      colour ← _colour_for_clade all_clades clade;
      rest ← colours all_clades clades';
      Return (colour :: rest)
  end.

(** The first loop of the constructor. *)
Fixpoint add_clade_styles (all_clades : list string) (svg : Svg) (clades : list string)
    : result Svg :=
  match clades with
  | [] => Return svg
  | clade :: clades' =>
      colour ← _colour_for_clade all_clades clade;
      add_clade_styles all_clades
        (add_styles svg ("." +:+ clade) [("fill", colour); ("stroke", LINE_COLOUR)])
        clades'
  end.

(** [CircleDiagram(svg, clades)]; [size] is the global of the script. *)
Definition CircleDiagram_init (svg : Svg) (clades : list string) : result CircleDiagram :=
  let size := MAX_RINGS * RING_DEPTH * 2 in
  let center := (inject_Z size / 2, inject_Z size / 2)%Q in
  cols ← colours clades clades;
  svg ← add_clade_styles clades svg clades;
  let svg := add_styles svg "text"
               [("fill", FONT_COLOUR); ("font-family", FONT_NAME);
                ("font-size", str_int (10 * SCALE) +:+ "px")] in
  Return (mk_CircleDiagram 0 svg center (0, 0)%Q clades (list_to_map (zip clades cols))).

Definition _calc_coords (center : Q * Q) (r a : Q) : Q * Q :=
  (center.1 + sin a * r, center.2 + - cos a * r)%Q.

(** The first loop of [_draw_clades]. *)
Definition clade_coords (center : Q * Q) (radius : Q)
    (all_clades : list (string * Q * Q)) : list clade_coord :=
  (λ c : string * Q * Q,
     let '(clade, start_angle, end_angle) := c in
     let '(x, y) := _calc_coords center radius ((start_angle + end_angle) / 2)%Q in
     (clade, end_angle - start_angle, x - inject_Z (4 * SCALE), y + inject_Z (4 * SCALE))%Q)
  <$> all_clades.

(** The last loop of [_draw_clades]. *)
Fixpoint place (svg : Svg) (occupied : list (Q * Q)) (coords : list clade_coord)
    : Svg * list (Q * Q) :=
  match coords with
  | [] => (svg, occupied)
  | (clade, _, x, y) :: coords' =>
      if is_room occupied x y
      then place (add_text svg (upper clade) x y) (occupied ++ [(x, y)]) coords'
      else place svg occupied coords'
  end.

Definition _draw_clades (d : CircleDiagram) (level : Z)
    (all_clades : list (string * Q * Q)) : CircleDiagram :=
  let radius := ring_radius level in
  let coords := sort_by_size (clade_coords (center d) radius all_clades) in
  let '(svg', _) := place (svg d) [] coords in
  mk_CircleDiagram (ring_count d) svg' (center d) (last_clade_pos d)
                   (diagram_clades d) (clade_colours d).

(** The loop of [add_ring].  Its body binds [letter], [start_angle] and
    [end_angle] and then reads the name [clade], which is bound neither
    in the method nor in the module. *)
Definition add_ring_loop (parts : list ring_entry) : result (list (string * Q * Q)) :=
  match parts with
  | [] => Return []
  | _ :: _ => Raise NameError
  end.

Definition add_ring (d : CircleDiagram) (parts : list ring_entry) : result CircleDiagram :=
  let level := ring_count d in
  all_clades ← add_ring_loop parts;
  let d := _draw_clades d (level + 1) all_clades in
  Return (mk_CircleDiagram (ring_count d + 1) (svg d) (center d) (last_clade_pos d)
                           (diagram_clades d) (clade_colours d)).

Fixpoint add_rings (d : CircleDiagram) (rings : list (list ring_entry))
    : result CircleDiagram :=
  match rings with
  | [] => Return d
  | ring :: rings' => d ← add_ring d ring; add_rings d rings'
  end.

(** The script, from the parsed records to the text of the output file. *)
Definition main (records : list record) (template_file : string) : result string :=
  let tree := build records in
  let size := MAX_RINGS * RING_DEPTH * 2 in
  let document := Svg_init template_file size size in
  diagram ← CircleDiagram_init document (merge_sort String.le (elements (clades tree)));
  rings ← Rings tree;
  diagram ← add_rings diagram (get rings);
  Svg_save (svg diagram).
End drawing.

(** Every [Node] below [n] has a child. *)
Definition below_have_children (n : node) : Prop :=
  ∀ k q m, descend (k :: q) n = Some m → cls m = NodeClass → children m ≠ ∅.

(** Two anchors are at least [LETTER_SPACING] apart. *)
Definition far (a b : Q * Q) : Prop :=
  (inject_Z (LETTER_SPACING ^ 2) <= dist2 a b)%Q.

(** Every anchor of the list is far from all the later ones. *)
Fixpoint all_far (l : list (Q * Q)) : Prop :=
  match l with
  | [] => True
  | a :: l' => Forall (far a) l' ∧ all_far l'
  end.

(** The anchor of a candidate label. *)
Definition anchor (c : clade_coord) : Q * Q := (c.1.2, c.2).

(** The element written by [Svg.add_text] for a candidate. *)
Definition label_text (str_float : Q → string) (c : clade_coord) : string :=
  text_element (str_float c.1.2) (str_float c.2) (upper c.1.1.1).

(** ** Invariants used in the proofs *)

(** Below a key [END] sits a pristine [EndNode()], everywhere else a [Node]. *)
Definition classes_ok (n : node) : Prop :=
  ∀ q m, descend q n = Some m →
    if decide (END ∈ q) then m = EndNode else cls m = NodeClass.

(** The facts carried along the insertions, for the subtree [n] that sits
    at the path [pre]: the count of every [Node] below is what its
    children and the records ending there account for; a [Node] has an end
    marker exactly when a record ends there; and no record seen so far
    ends where the tree has no node. *)
Definition weights_ok (pre : list string) (n : node) (seen : list record) : Prop :=
  ∀ q m, descend q n = Some m → cls m = NodeClass →
         count m = child_weights m + direct_weight (pre ++ q) seen.

Definition marks_ok (pre : list string) (n : node) (seen : list record) : Prop :=
  ∀ q m, descend q n = Some m → cls m = NodeClass →
         (is_Some (children m !! END) ↔ ∃ w, (pre ++ q, w) ∈ seen).

Definition absent_ok (pre : list string) (n : node) (seen : list record) : Prop :=
  ∀ q w, END ∉ q → descend q n = None → (pre ++ q, w) ∉ seen.


(** ** Further notions used by the properties of the tree *)

(** Total weight of the records whose path starts with [path]. *)
Definition through_weight (path : list string) (records : list record) : Z :=
  foldr (λ r acc, if decide (path `prefix_of` r.1) then r.2 + acc else acc) 0 records.

(** The key under which a node at the end of [path] is stored; [START]
    for the root. *)
Definition last_key (path : list string) : string := default START (last path).

(** Every node stored under a key other than [END] is a [Node] that carries
    its key as label. *)
Definition labelled (n : node) : Prop :=
  ∀ q m, END ∉ q → q ≠ [] → descend q n = Some m →
         cls m = NodeClass ∧ clade m = last_key q.

(** ** Further notions used by the properties of the labels *)

(** [a] comes before [b] in an order by decreasing size. *)
Definition size_ge (a b : clade_coord) : Prop := (b.1.1.2 <= a.1.1.2)%Q.

(** ** Further notions used by the properties of the colours *)

(** The hue that [_colour_for_clade] hands to [hls_to_rgb]:
    [clade_index / clade_count]. *)
Definition hue_of (clades : list string) (clade : string) : result Q :=
  clade_index ← index clades clade;
  truediv (inject_Z clade_index) (Z.of_nat (length clades)).

(** The colour string made from a hue. *)
Definition colour_of_hue (hls_to_rgb : Q → Q → Q → Q * Q * Q) (hex2 : Q → string)
    (hue : Q) : string :=
  let '(r, g, b) := hls_to_rgb hue COLOUR_LIGHTNESS 1%Q in
  "#" +:+ String.concat "" (hex2 <$> [r * 255; g * 255; b * 255]%Q).



(** ** Wedges: Svg.add_path, Svg.add_segment and CircleDiagram._draw_segment *)

(** [Svg.add_path] *)
Definition add_path (svg : Svg) (d clazz : string) : Svg :=
  mk_Svg (template svg) (styles svg)
         (content svg ++ ["<path d=" +:+ dquote +:+ d +:+ dquote +:+ " class=" +:+ dquote
                          +:+ clazz +:+ dquote +:+ "/>"]).

Section wedges.
Variables sin cos : Q → Q.
Variable str_float : Q → string.



End wedges.

(** ** Further notions used by the properties of the document *)

(** The rule that [Svg.add_styles] appends and the element that
    [Svg.add_path] appends. *)
Definition style_rule (selector : string) (decls : list (string * string)) : string :=
  selector +:+ "{" +:+ String.concat "" ((λ kv, kv.1 +:+ ":" +:+ kv.2 +:+ ";") <$> decls)
  +:+ "}".

Definition path_element (d clazz : string) : string :=
  "<path d=" +:+ dquote +:+ d +:+ dquote +:+ " class=" +:+ dquote +:+ clazz +:+ dquote
  +:+ "/>".

(* ================================================================== *)
(** * Properties *)

(** ** Tree.add *)

Lemma count_add_clades n p w : count (add_clades n p w) = count n + w.
Proof. destruct p; reflexivity. Qed.

Lemma cls_add_clades n p w : cls (add_clades n p w) = cls n.
Proof. destruct p; reflexivity. Qed.

Lemma root_build_from_snoc t rs p w :
  build_from t (rs ++ [(p, w)]) = add (build_from t rs) p w.
Proof. unfold build_from. rewrite fold_left_app. reflexivity. Qed.

Lemma count_root_build_from rs : ∀ t,
  count (root (build_from t rs)) = count (root t) + total_weight rs.
Proof.
  induction rs as [|[p w] rs IH]; intros t; simpl.
  - lia.
  - unfold build_from in *. simpl. rewrite IH. simpl. rewrite count_add_clades. lia.
Qed.

(** C3. After any sequence of [add] calls on a new tree, the count of the
    root is the sum of all the weights that were added; started from any
    tree, the calls add that sum to the count of its root. *)
Theorem root_weight_is_total (records : list record) :
  count (root (build records)) = total_weight records
  ∧ ∀ t, count (root (build_from t records)) = count (root t) + total_weight records.
Proof.
  split.
  - unfold build. rewrite count_root_build_from. reflexivity.
  - intros t. apply count_root_build_from.
Qed.

(** *** Reading the tree after an insertion *)

Lemma descend_EndNode q m : descend q EndNode = Some m → q = [] ∧ m = EndNode.
Proof. destruct q; simpl; [intros [= <-]; done | rewrite lookup_empty; done]. Qed.

Lemma descend_Node c q m : descend q (Node c) = Some m → q = [] ∧ m = Node c.
Proof. destruct q; simpl; [intros [= <-]; done | rewrite lookup_empty; done]. Qed.

Lemma descend_add_nil n w k q :
  descend (k :: q) (add_clades n [] w) =
  if decide (k = END) then descend q EndNode else descend (k :: q) n.
Proof.
  simpl. case_decide as Hk.
  - subst k. rewrite lookup_insert_eq. reflexivity.
  - rewrite lookup_insert_ne by done. reflexivity.
Qed.

Lemma descend_add_cons n c p w k q :
  descend (k :: q) (add_clades n (c :: p) w) =
  if decide (k = c)
  then descend q (add_clades (default (Node c) (children n !! c)) p w)
  else descend (k :: q) n.
Proof.
  simpl. case_decide as Hk.
  - subst k. rewrite lookup_insert_eq. destruct (children n !! c); reflexivity.
  - rewrite lookup_insert_ne by done. reflexivity.
Qed.

(** *** Classes of the nodes of a tree built from end-free paths *)


Lemma classes_ok_Node c : classes_ok (Node c).
Proof.
  intros q m Hq. apply descend_Node in Hq as [-> ->].
  rewrite decide_False by set_solver. reflexivity.
Qed.

Lemma classes_ok_child n c m :
  c ≠ END → classes_ok n → children n !! c = Some m → classes_ok m.
Proof.
  intros Hc Hn Hm q m' Hq.
  specialize (Hn (c :: q) m'). simpl in Hn. rewrite Hm in Hn.
  specialize (Hn Hq).
  destruct (decide (END ∈ q)) as [Hin|Hin].
  - rewrite decide_True in Hn by set_solver. done.
  - rewrite decide_False in Hn by set_solver. done.
Qed.

Lemma classes_ok_add_clades p : ∀ n w,
  END ∉ p → classes_ok n → classes_ok (add_clades n p w).
Proof.
  induction p as [|c p IH]; intros n w Hp Hn q m Hq.
  - destruct q as [|k q].
    + injection Hq as <-. rewrite decide_False by set_solver.
      simpl. apply (Hn [] n eq_refl).
    + rewrite descend_add_nil in Hq. case_decide as Hk.
      * subst k. apply descend_EndNode in Hq as [-> ->].
        rewrite decide_True by set_solver. reflexivity.
      * apply Hn in Hq.
        destruct (decide (END ∈ q)).
        -- rewrite decide_True in Hq |- * by set_solver. done.
        -- rewrite decide_False in Hq by set_solver.
           rewrite decide_False by set_solver. done.
  - assert (c ≠ END) as Hc by set_solver.
    assert (END ∉ p) as Hp' by set_solver.
    destruct q as [|k q].
    + injection Hq as <-. rewrite decide_False by set_solver.
      simpl. apply (Hn [] n eq_refl).
    + rewrite descend_add_cons in Hq. case_decide as Hk.
      * subst k.
        assert (classes_ok (default (Node c) (children n !! c))) as Hchild.
        { destruct (children n !! c) as [m0|] eqn:Hm0; simpl.
          - eapply classes_ok_child; eauto.
          - apply classes_ok_Node. }
        apply (IH _ w Hp' Hchild) in Hq.
        destruct (decide (END ∈ q)).
        -- rewrite decide_True by set_solver. done.
        -- rewrite decide_False by set_solver. done.
      * apply Hn in Hq. done.
Qed.

Lemma classes_ok_build_from rs : ∀ t,
  end_free rs → classes_ok (root t) → classes_ok (root (build_from t rs)).
Proof.
  induction rs as [|[p w] rs IH]; intros t Hrs Ht; [done|].
  apply Forall_cons in Hrs as [Hp Hrs].
  apply IH; [done|]. simpl. by apply classes_ok_add_clades.
Qed.

Lemma classes_ok_build rs : end_free rs → classes_ok (root (build rs)).
Proof. intros. apply classes_ok_build_from; [done | apply classes_ok_Node]. Qed.

(** C10 (as stated, refuted).  The record [a] puts an end marker below [a];
    the record [a;$] then walks into that end marker, adds 5 to its count
    and gives it an end marker of its own. *)
Lemma end_marker_weight_counterexample :
  ∃ m, descend ["a"; "$"] (root (build [(["a"], 3); (["a"; "$"], 5)])) = Some m
       ∧ cls m = EndNodeClass ∧ count m = 6.
Proof. eexists. split; [vm_compute; reflexivity|]. split; reflexivity. Qed.

Lemma descend_end_after_add p : ∀ n w,
  descend (p ++ [END]) (add_clades n p w) = Some EndNode.
Proof.
  induction p as [|c p IH]; intros n w; simpl.
  - by rewrite lookup_insert_eq.
  - rewrite lookup_insert_eq. apply IH.
Qed.

(** C10 (amended).  Each [add] leaves a pristine [EndNode()] below the
    node at which its path ends.  When no path contains the label [$],
    every node of class [EndNode] in the tree is such a pristine
    [EndNode()]: count 1 and no children, whatever the weight and the
    number of the records ending there. *)
Theorem end_marker_weight_is_one (records : list record) :
  end_free records →
  (∀ q m, descend q (root (build records)) = Some m →
          cls m = EndNodeClass → m = EndNode ∧ count m = 1)
  ∧ (∀ p w, descend (p ++ [END]) (root (add (build records) p w)) = Some EndNode).
Proof.
  intros Hfree. split.
  - intros q m Hq Hcls.
    pose proof (classes_ok_build records Hfree q m Hq) as H.
    case_decide; [subst m; done | congruence].
  - intros p w. apply descend_end_after_add.
Qed.

Lemma end_marker_weight_is_one_witness :
  ∃ m, descend ["a"; "$"] (root (build [(["a"], 3); (["a"; "b"], 5)])) = Some m
       ∧ m = EndNode ∧ count m = 1.
Proof.
  exists EndNode. split; [vm_compute; reflexivity|].
  apply (end_marker_weight_is_one [(["a"], 3); (["a"; "b"], 5)]) with (q := ["a"; "$"]).
  - repeat constructor; vm_compute; set_solver.
  - vm_compute; reflexivity.
  - reflexivity.
Defined.

(** *** Weight bookkeeping *)

Lemma weight_step_comm j1 j2 z1 z2 y :
  weight_step j1 z1 (weight_step j2 z2 y) = weight_step j2 z2 (weight_step j1 z1 y).
Proof. unfold weight_step. repeat case_decide; lia. Qed.

Lemma weight_step_acc k c acc : weight_step k c acc = weight_step k c 0 + acc.
Proof. unfold weight_step. case_decide; lia. Qed.

Lemma fold_weights_insert (m : gmap string node) k x :
  map_fold weight_step 0 (<[k := x]> m) =
  map_fold weight_step 0 m - from_option (λ c, weight_step k c 0) 0 (m !! k)
  + weight_step k x 0.
Proof.
  destruct (m !! k) as [old|] eqn:Hk; simpl.
  - rewrite <-insert_delete_eq.
    rewrite map_fold_insert_L
      by (first [by rewrite lookup_delete_eq | intros; apply weight_step_comm]).
    rewrite (map_fold_delete_L weight_step 0 k old m)
      by (first [done | intros; apply weight_step_comm]).
    rewrite (weight_step_acc k x (map_fold _ _ _)),
            (weight_step_acc k old (map_fold _ _ _)).
    lia.
  - rewrite map_fold_insert_L
      by (first [done | intros; apply weight_step_comm]).
    rewrite (weight_step_acc k x (map_fold _ _ _)). lia.
Qed.

Lemma child_weights_add_nil n w : child_weights (add_clades n [] w) = child_weights n.
Proof.
  unfold child_weights. simpl. rewrite fold_weights_insert.
  unfold weight_step.
  destruct (children n !! END); cbn -[map_fold]; repeat case_decide; done || lia.
Qed.

Lemma child_weights_add_cons n c p w :
  c ≠ END → child_weights (add_clades n (c :: p) w) = child_weights n + w.
Proof.
  intros Hc. unfold child_weights. simpl. rewrite fold_weights_insert.
  unfold weight_step at 2 3.
  destruct (children n !! c); cbn -[map_fold add_clades];
    repeat case_decide; try done; rewrite count_add_clades; simpl; lia.
Qed.

Lemma direct_weight_snoc x rs y w :
  direct_weight x (rs ++ [(y, w)]) =
  direct_weight x rs + (if decide (y = x) then w else 0).
Proof.
  induction rs as [|r rs IH]; simpl.
  - case_decide; lia.
  - rewrite IH. repeat case_decide; lia.
Qed.

Lemma descend_add_self p : ∀ n w, is_Some (descend p (add_clades n p w)).
Proof.
  induction p as [|c p IH]; intros n w; [by eexists|].
  rewrite descend_add_cons, decide_True by done. apply IH.
Qed.

Lemma descend_add_mono q : ∀ n p w,
  END ∉ q → is_Some (descend q n) → is_Some (descend q (add_clades n p w)).
Proof.
  induction q as [|k q IH]; intros n p w Hq Hn; [by eexists|].
  assert (k ≠ END) by set_solver. assert (END ∉ q) by set_solver.
  destruct p as [|c p].
  - rewrite descend_add_nil, decide_False by done. done.
  - rewrite descend_add_cons. case_decide as Hk; [subst k|done].
    simpl in Hn. destruct (children n !! c) as [m|]; simpl; [|by destruct Hn].
    by apply IH.
Qed.


Lemma direct_weight_absent p seen :
  (∀ w, (p, w) ∉ seen) → direct_weight p seen = 0.
Proof.
  induction seen as [|[p' w'] seen IH]; intros Habs; simpl; [done|].
  rewrite decide_False.
  - apply IH. intros w Hin. apply (Habs w). by right.
  - intros ->. apply (Habs w'). by left.
Qed.

Lemma absent_ok_add pre n p w seen :
  absent_ok pre n seen →
  absent_ok pre (add_clades n p w) (seen ++ [(pre ++ p, w)]).
Proof.
  intros Hn q w' Hq Hnone [Hin|Hin%list_elem_of_singleton]%elem_of_app.
  - apply (Hn q w' Hq); [|done].
    destruct (descend q n) eqn:Hd; [|done].
    destruct (descend_add_mono q n p w Hq) as [m Hm]; [by eexists|congruence].
  - injection Hin as ->%(inj (app pre)) _.
    destruct (descend_add_self p n w) as [m Hm]. congruence.
Qed.

(** The invariants of the child that [add_clades] walks into. *)
Lemma weights_ok_step pre n c seen :
  c ≠ END → weights_ok pre n seen → absent_ok pre n seen →
  weights_ok (pre ++ [c]) (default (Node c) (children n !! c)) seen.
Proof.
  intros Hc Hn Habs q m Hq Hcls. rewrite <-app_assoc. simpl.
  destruct (children n !! c) as [m0|] eqn:Hm0; simpl in Hq.
  - apply Hn; [|done]. simpl. by rewrite Hm0.
  - apply descend_Node in Hq as [-> ->]. simpl.
    rewrite direct_weight_absent; [reflexivity|].
    intros w. apply (Habs [c]); [set_solver|]. simpl. by rewrite Hm0.
Qed.

Lemma marks_ok_step pre n c seen :
  c ≠ END → marks_ok pre n seen → absent_ok pre n seen →
  marks_ok (pre ++ [c]) (default (Node c) (children n !! c)) seen.
Proof.
  intros Hc Hn Habs q m Hq Hcls. rewrite <-app_assoc. simpl.
  destruct (children n !! c) as [m0|] eqn:Hm0; simpl in Hq.
  - apply Hn; [|done]. simpl. by rewrite Hm0.
  - apply descend_Node in Hq as [-> ->]. simpl. rewrite lookup_empty. split.
    + by intros [? ?].
    + intros [w Hw]. exfalso. revert Hw.
      apply (Habs [c]); [set_solver|]. simpl. by rewrite Hm0.
Qed.

Lemma absent_ok_step pre n c seen :
  c ≠ END → absent_ok pre n seen →
  absent_ok (pre ++ [c]) (default (Node c) (children n !! c)) seen.
Proof.
  intros Hc Habs q w Hq Hnone. rewrite <-app_assoc. simpl.
  apply Habs; [set_solver|]. simpl.
  destruct (children n !! c) as [m0|] eqn:Hm0; simpl in Hnone; [done|done].
Qed.

Lemma weights_ok_add p : ∀ pre n w seen,
  END ∉ p → weights_ok pre n seen → absent_ok pre n seen →
  weights_ok pre (add_clades n p w) (seen ++ [(pre ++ p, w)]).
Proof.
  induction p as [|c p IH]; intros pre n w seen Hp Hn Habs q m Hq Hcls.
  - rewrite direct_weight_snoc. destruct q as [|k q].
    + assert (m = add_clades n [] w) as -> by (injection Hq as <-; reflexivity).
      rewrite decide_True by done.
      rewrite child_weights_add_nil, count_add_clades.
      rewrite cls_add_clades in Hcls.
      rewrite (Hn [] n eq_refl Hcls). lia.
    + rewrite descend_add_nil in Hq. case_decide as Hk.
      * apply descend_EndNode in Hq as [_ ->]. done.
      * rewrite decide_False by (intros Heq%(inj (app pre)); done).
        rewrite (Hn _ _ Hq Hcls). lia.
  - assert (c ≠ END) as Hc by set_solver.
    assert (END ∉ p) as Hp' by set_solver.
    destruct q as [|k q].
    + assert (m = add_clades n (c :: p) w) as -> by (injection Hq as <-; reflexivity).
      rewrite direct_weight_snoc.
      rewrite decide_False by (intros Heq%(inj (app pre)); done).
      rewrite child_weights_add_cons, count_add_clades by done.
      rewrite cls_add_clades in Hcls.
      rewrite (Hn [] n eq_refl Hcls). lia.
    + rewrite descend_add_cons in Hq. case_decide as Hk.
      * subst k. replace (pre ++ c :: p) with ((pre ++ [c]) ++ p)
          by (by rewrite <-app_assoc).
        replace (pre ++ c :: q) with ((pre ++ [c]) ++ q)
          by (by rewrite <-app_assoc).
        eapply IH; [done| | |exact Hq|done].
        -- by apply weights_ok_step.
        -- by apply absent_ok_step.
      * rewrite direct_weight_snoc.
        rewrite decide_False by (intros Heq%(inj (app pre)); congruence).
        rewrite (Hn _ _ Hq Hcls). lia.
Qed.

Lemma marks_ok_add p : ∀ pre n w seen,
  END ∉ p → marks_ok pre n seen → absent_ok pre n seen →
  marks_ok pre (add_clades n p w) (seen ++ [(pre ++ p, w)]).
Proof.
  assert (∀ (pre x y : list string) (w : Z) seen, x ≠ y →
            (∃ w', (pre ++ x, w') ∈ seen ++ [(pre ++ y, w)])
            ↔ ∃ w', (pre ++ x, w') ∈ seen) as Hother.
  { intros pre x y w seen Hxy. split; intros [w' Hw']; exists w'.
    - apply elem_of_app in Hw' as [?|Hw'%list_elem_of_singleton]; [done|].
      injection Hw' as ?%(inj (app pre)) _. done.
    - apply elem_of_app. by left. }
  induction p as [|c p IH]; intros pre n w seen Hp Hn Habs q m Hq Hcls.
  - destruct q as [|k q].
    + assert (m = add_clades n [] w) as -> by (injection Hq as <-; reflexivity).
      simpl. rewrite lookup_insert_eq. split; [|by eexists].
      intros _. exists w. apply elem_of_app. right. by left.
    + rewrite descend_add_nil in Hq. case_decide as Hk.
      * apply descend_EndNode in Hq as [_ ->]. done.
      * rewrite (Hother pre (k :: q) [] w seen) by done. by apply Hn.
  - assert (c ≠ END) as Hc by set_solver.
    assert (END ∉ p) as Hp' by set_solver.
    destruct q as [|k q].
    + assert (m = add_clades n (c :: p) w) as -> by (injection Hq as <-; reflexivity).
      simpl children. rewrite lookup_insert_ne by done.
      rewrite (Hother pre [] (c :: p) w seen) by done.
      rewrite cls_add_clades in Hcls. by apply (Hn [] n).
    + rewrite descend_add_cons in Hq. case_decide as Hk.
      * subst k. replace (pre ++ c :: p) with ((pre ++ [c]) ++ p)
          by (by rewrite <-app_assoc).
        replace (pre ++ c :: q) with ((pre ++ [c]) ++ q)
          by (by rewrite <-app_assoc).
        eapply IH; [done| | |exact Hq|done].
        -- by apply marks_ok_step.
        -- by apply absent_ok_step.
      * rewrite (Hother pre (k :: q) (c :: p) w seen) by congruence. by apply Hn.
Qed.

Lemma weights_ok_build_from rs : ∀ t seen,
  end_free rs →
  weights_ok [] (root t) seen → marks_ok [] (root t) seen →
  absent_ok [] (root t) seen →
  weights_ok [] (root (build_from t rs)) (seen ++ rs)
  ∧ marks_ok [] (root (build_from t rs)) (seen ++ rs).
Proof.
  induction rs as [|[p w] rs IH]; intros t seen Hrs Hw Hm Ha.
  - by rewrite app_nil_r.
  - apply Forall_cons in Hrs as [Hp Hrs].
    rewrite (cons_middle _ seen rs), app_assoc.
    apply IH; [done| | |]; simpl.
    + by apply (weights_ok_add p []).
    + by apply (marks_ok_add p []).
    + by apply (absent_ok_add []).
Qed.

Lemma tree_ok_build rs :
  end_free rs →
  weights_ok [] (root (build rs)) rs ∧ marks_ok [] (root (build rs)) rs.
Proof.
  intros Hfree.
  apply (weights_ok_build_from rs Tree_init [] Hfree).
  - intros q m Hq _. apply descend_Node in Hq as [-> ->]. reflexivity.
  - intros q m Hq _. apply descend_Node in Hq as [-> ->]. simpl.
    rewrite lookup_empty. split; [by intros [? ?]|]. intros [w Hw]. by apply elem_of_nil in Hw.
  - intros q w _ _ Hin. by apply elem_of_nil in Hin.
Qed.

(** C2 (as stated, refuted).  The record [a;$] creates a node under the key
    of the end marker; the record [a] then replaces that node by an end
    marker.  The node [a] keeps the count 8 although only a weight of 3
    ends there and its only child is an end marker of count 1. *)
Lemma node_weight_counterexample :
  ∃ m, descend ["a"] (root (build [(["a"; "$"], 5); (["a"], 3)])) = Some m
       ∧ cls m = NodeClass
       ∧ count m = 8
       ∧ children m = {[ "$" := EndNode ]}
       ∧ direct_weight ["a"] [(["a"; "$"], 5); (["a"], 3)] = 3
       ∧ count m ≠ child_weights m + direct_weight ["a"] [(["a"; "$"], 5); (["a"], 3)].
Proof.
  eexists. split; [vm_compute; reflexivity|].
  repeat split; try reflexivity. vm_compute. discriminate.
Qed.

(** C2 (amended).  When no path contains the label [$], every [Node] of the
    tree built from the records has as count the sum of the counts of its
    children other than the end marker, plus the total weight of the
    records whose path ends exactly at that node; and it has an end
    marker, a pristine [EndNode()] of count 1, exactly when some record
    ends there. *)
Theorem node_weight_conservation (records : list record) :
  end_free records →
  ∀ q m, descend q (root (build records)) = Some m →
         cls m = NodeClass →
         count m = child_weights m + direct_weight q records
         ∧ (children m !! END = Some EndNode ↔ ∃ w, (q, w) ∈ records).
Proof.
  intros Hfree q m Hq Hcls.
  destruct (tree_ok_build records Hfree) as [Hw Hm].
  split; [exact (Hw q m Hq Hcls)|].
  rewrite <-(Hm q m Hq Hcls). split; [by eexists|].
  intros [e He]. rewrite He. f_equal.
  pose proof (classes_ok_build records Hfree (q ++ [END]) e) as Hclass.
  rewrite decide_True in Hclass by set_solver. apply Hclass.
  clear Hclass. revert Hq. generalize (root (build records)).
  induction q as [|k q IH]; intros n Hq; simpl in *.
  - injection Hq as ->. by rewrite He.
  - destruct (children n !! k); [by apply IH|done].
Qed.

Lemma node_weight_conservation_witness :
  ∃ m, descend ["A"] (root (build [(["A"], 3); (["A"; "B"], 2); (["A"; "C"], 5)])) = Some m
       ∧ count m = child_weights m
                   + direct_weight ["A"] [(["A"], 3); (["A"; "B"], 2); (["A"; "C"], 5)].
Proof.
  eexists. split; [vm_compute; reflexivity|].
  apply (node_weight_conservation [(["A"], 3); (["A"; "B"], 2); (["A"; "C"], 5)]).
  - repeat constructor; vm_compute; set_solver.
  - vm_compute; reflexivity.
  - reflexivity.
Defined.

(** *** Insertions commute *)

Lemma node_eq c1 c2 l1 l2 n1 n2 ch1 ch2 :
  c1 = c2 → l1 = l2 → n1 = n2 → ch1 = ch2 →
  mk_node c1 l1 n1 ch1 = mk_node c2 l2 n2 ch2.
Proof. by intros -> -> -> ->. Qed.

Lemma add_clades_comm p1 : ∀ p2 n w1 w2,
  END ∉ p1 → END ∉ p2 →
  add_clades (add_clades n p1 w1) p2 w2 = add_clades (add_clades n p2 w2) p1 w1.
Proof.
  induction p1 as [|c1 p1 IH]; intros [|c2 p2] n w1 w2 H1 H2; simpl;
    apply node_eq; try reflexivity; try lia.
  - assert (c2 ≠ END) by set_solver.
    rewrite lookup_insert_ne by done. by rewrite insert_insert_ne.
  - assert (c1 ≠ END) by set_solver.
    rewrite lookup_insert_ne by done. by rewrite insert_insert_ne.
  - assert (END ∉ p1) by set_solver. assert (END ∉ p2) by set_solver.
    destruct (decide (c1 = c2)) as [->|Hne].
    + rewrite !lookup_insert_eq, !insert_insert_eq. f_equal. by apply IH.
    + rewrite !lookup_insert_ne by done. by rewrite insert_insert_ne.
Qed.

Lemma add_comm t p1 w1 p2 w2 :
  END ∉ p1 → END ∉ p2 →
  add (add t p1 w1) p2 w2 = add (add t p2 w2) p1 w1.
Proof.
  intros H1 H2. unfold add. simpl. f_equal.
  - by apply add_clades_comm.
  - set_solver.
Qed.

Lemma build_from_Permutation rs1 rs2 :
  rs1 ≡ₚ rs2 → end_free rs1 → ∀ t, build_from t rs1 = build_from t rs2.
Proof.
  induction 1 as [|r rs1 rs2 _ IH|r1 r2 rs|rs1 rs2 rs3 H12 IH12 _ IH23];
    intros Hfree t.
  - reflexivity.
  - apply Forall_cons in Hfree as [_ Hfree]. simpl. by apply IH.
  - apply Forall_cons in Hfree as [H2 [H1 _]%Forall_cons].
    simpl. by rewrite add_comm.
  - rewrite IH12 by done. apply IH23. unfold end_free. by rewrite <-H12.
Qed.

(** ** Rings *)

(** *** Induction on trees *)



(** *** Sorted keys *)

Lemma sorted_keys_Permutation {A} (d : gmap string A) :
  sorted_keys d ≡ₚ (map_to_list d).*1.
Proof. apply merge_sort_Permutation. Qed.

Lemma elem_of_sorted_keys {A} (d : gmap string A) k :
  k ∈ sorted_keys d ↔ is_Some (d !! k).
Proof.
  rewrite sorted_keys_Permutation, list_elem_of_fmap. split.
  - intros [[k' x] [-> Hx%elem_of_map_to_list]]. by eexists.
  - intros [x Hx]. exists (k, x). split; [done|]. by apply elem_of_map_to_list.
Qed.

Lemma sorted_keys_nil {A} (d : gmap string A) : sorted_keys d = [] → d = ∅.
Proof.
  intros Hnil. apply map_to_list_empty_iff.
  pose proof (sorted_keys_Permutation d) as Hp. rewrite Hnil in Hp.
  apply Permutation_nil_l in Hp. symmetry in Hp. by apply fmap_nil_inv in Hp.
Qed.



(** *** The visitor *)

Lemma getattr_letter n : getattr n "letter" = Raise AttributeError.
Proof. reflexivity. Qed.



Lemma dfs_unfold n depth node_size offset :
  _dfs n depth node_size offset =
  (dfs_loop (_dfs <$> children n) (children n) (count n) depth node_size
            (sorted_keys (children n)) offset;;
   _on_node n depth node_size offset).
Proof. destruct n. reflexivity. Qed.

(** *** How the traversal ends *)






Lemma dfs_zero_root n depth node_size offset s :
  count n = 0 → children n ≠ ∅ →
  _dfs n depth node_size offset s = Raise ZeroDivisionError.
Proof.
  intros Hz Hne. rewrite dfs_unfold. unfold mbind at 1, M_bind at 1.
  destruct (sorted_keys (children n)) as [|key keys] eqn:Hkeys.
  { by apply sorted_keys_nil in Hkeys. }
  assert (is_Some (children n !! key)) as [c Hc].
  { apply elem_of_sorted_keys. rewrite Hkeys. set_solver. }
  simpl. rewrite lookup_fmap, Hc. simpl.
  unfold mbind, M_bind, lift, truediv. rewrite decide_True by done. reflexivity.
Qed.

Lemma cls_root_build_from rs : ∀ t, cls (root (build_from t rs)) = cls (root t).
Proof.
  induction rs as [|[p w] rs IH]; intros t; [done|].
  simpl. rewrite IH. simpl. apply cls_add_clades.
Qed.

Lemma children_add_clades_nonempty n p w : children (add_clades n p w) ≠ ∅.
Proof. destruct p; simpl; apply insert_non_empty. Qed.

Lemma children_root_build_nonempty rs : rs ≠ [] → children (root (build rs)) ≠ ∅.
Proof.
  destruct rs as [|r rs _] using rev_ind; [done|]. intros _.
  destruct r as [p w]. unfold build. rewrite root_build_from_snoc. simpl.
  apply children_add_clades_nonempty.
Qed.

(** *** Positive weights leave no node of count zero *)










(** *** The spans of the children *)

Section spans.
Context (m : gmap string node) (cnt : Z) (node_size : Q).


Lemma child_spans_inv key keys offset spans :
  child_spans m cnt node_size (key :: keys) offset = Return spans →
  ∃ c rest,
    m !! key = Some c ∧ cnt ≠ 0
    ∧ child_spans m cnt node_size keys
        (offset + node_size * inject_Z (count c) / inject_Z cnt)%Q = Return rest
    ∧ spans = (key, (node_size * inject_Z (count c) / inject_Z cnt)%Q, offset) :: rest.
Proof.
  simpl. destruct (m !! key) as [c|]; [|done].
  unfold truediv. destruct (decide (cnt = 0)); [done|].
  unfold mbind, result_bind. simpl.
  destruct (child_spans _ _ _ keys _) as [rest|] eqn:Hrest; [|done].
  intros [= <-]. by exists c, rest.
Qed.



Lemma child_spans_sizes keys : ∀ offset spans,
  child_spans m cnt node_size keys offset = Return spans →
  Forall (λ sp : string * Q * Q, ∃ c,
            m !! sp.1.1 = Some c
            ∧ sp.1.2 = (node_size * inject_Z (count c) / inject_Z cnt)%Q) spans.
Proof.
  induction keys as [|key keys IH]; intros offset spans Hs.
  - injection Hs as <-. constructor.
  - apply child_spans_inv in Hs as (c & rest & Hc & _ & Hrest & ->).
    constructor; [by exists c|]. by eapply IH.
Qed.


End spans.







(** ** Order of the records *)

(** C5 (as stated, refuted).  Read after [a], the path [a;$;b] walks into
    the end marker below [a] and hangs a node [b] of count 0 under it,
    where the traversal then divides by zero; read before [a], the node it
    creates under the key [$] is replaced by a new end marker and the
    traversal fails at the read of [node.letter] instead. *)
Lemma order_counterexample :
  [(["a"], 1); (["a"; "$"; "b"], 0)] ≡ₚ [(["a"; "$"; "b"], 0); (["a"], 1)]
  ∧ Rings (build [(["a"], 1); (["a"; "$"; "b"], 0)]) = Raise ZeroDivisionError
  ∧ Rings (build [(["a"; "$"; "b"], 0); (["a"], 1)]) = Raise AttributeError
  ∧ is_Some (descend ["a"; "$"; "b"] (root (build [(["a"], 1); (["a"; "$"; "b"], 0)])))
  ∧ descend ["a"; "$"; "b"] (root (build [(["a"; "$"; "b"], 0); (["a"], 1)])) = None.
Proof.
  split; [apply perm_swap|].
  split; [vm_compute; reflexivity|].
  split; [vm_compute; reflexivity|].
  split; [vm_compute; by eexists | vm_compute; reflexivity].
Qed.

(** C5 (amended).  Two sequences of records that are permutations of each
    other and whose paths do not contain the label [$] build the same
    tree, with the same set of labels; the traversal of [Rings], a
    function of the tree that visits the children by increasing key, then
    computes the same sizes and offsets for every node and ends in the
    same way. *)
Theorem order_irrelevant (records1 records2 : list record) :
  records1 ≡ₚ records2 →
  end_free records1 →
  build records1 = build records2
  ∧ (∀ q node_size offset,
       (λ m, spans_of m node_size offset) <$> descend q (root (build records1))
       = (λ m, spans_of m node_size offset) <$> descend q (root (build records2)))
  ∧ Rings (build records1) = Rings (build records2).
Proof.
  intros Hperm Hfree.
  assert (build records1 = build records2) as Heq
    by (by apply build_from_Permutation).
  rewrite Heq. done.
Qed.

Lemma order_irrelevant_witness :
  build [(["A"], 3); (["A"; "B"], 2); (["A"; "C"], 5)]
  = build [(["A"; "C"], 5); (["A"], 3); (["A"; "B"], 2)].
Proof.
  apply (order_irrelevant [(["A"], 3); (["A"; "B"], 2); (["A"; "C"], 5)]
                          [(["A"; "C"], 5); (["A"], 3); (["A"; "B"], 2)]).
  - etrans; [apply perm_skip, perm_swap | apply perm_swap].
  - repeat constructor; vm_compute; set_solver.
Defined.

(** ** Weights that are zero or negative *)

Lemma below_have_children_add p : ∀ n w,
  below_have_children n → below_have_children (add_clades n p w).
Proof.
  induction p as [|c p IH]; intros n w Hn k q m Hq Hcls.
  - rewrite descend_add_nil in Hq. case_decide.
    + apply descend_EndNode in Hq as [_ ->]. done.
    + by eapply Hn.
  - rewrite descend_add_cons in Hq. case_decide as Hk; [subst k|by eapply Hn].
    destruct q as [|k' q'].
    + assert (m = add_clades (default (Node c) (children n !! c)) p w) as ->
        by (injection Hq as <-; reflexivity).
      apply children_add_clades_nonempty.
    + eapply (IH (default (Node c) (children n !! c)) w); [|exact Hq|done].
      destruct (children n !! c) as [c0|] eqn:Hc0; simpl.
      * intros k1 q1 m1 Hq1. apply (Hn c (k1 :: q1)).
        simpl in *. by rewrite Hc0.
      * intros k1 q1 m1 Hq1. simpl in Hq1. by rewrite lookup_empty in Hq1.
Qed.

Lemma below_have_children_build_from rs : ∀ t,
  below_have_children (root t) → below_have_children (root (build_from t rs)).
Proof.
  induction rs as [|[p w] rs IH]; intros t Ht; [done|].
  apply IH. simpl. by apply below_have_children_add.
Qed.

Lemma zero_child_span n node_size offset spans sp c :
  spans_of n node_size offset = Return spans →
  sp ∈ spans → children n !! sp.1.1 = Some c → count c = 0 →
  (sp.1.2 == 0)%Q.
Proof.
  intros Hs Hsp Hc Hzero.
  pose proof (child_spans_sizes _ _ _ _ _ _ Hs) as Hsizes.
  rewrite Forall_forall in Hsizes.
  destruct (Hsizes sp Hsp) as (c' & Hc' & ->).
  assert (c' = c) as -> by congruence.
  rewrite Hzero. unfold Qdiv. simpl. ring.
Qed.

(** C6 (as stated, refuted).  The record [a] of weight 0 builds a node [a]
    of count 0 whose child, the end marker, has the count 1; the root has
    the count 0 too, and the first division of the traversal raises
    [ZeroDivisionError]. *)
Lemma zero_weight_counterexample :
  ∃ a, descend ["a"] (root (build [(["a"], 0)])) = Some a
       ∧ count a = 0
       ∧ children a = {[ "$" := EndNode ]}
       ∧ count EndNode = 1
       ∧ Rings (build [(["a"], 0)]) = Raise ZeroDivisionError.
Proof.
  eexists. split; [vm_compute; reflexivity|].
  repeat split; vm_compute; reflexivity.
Qed.

(** C6 (amended).  [add] takes any integer weight, zero and negative ones
    included, and adds it to the counts without a check.  Every [Node]
    below the root has a child, so a node of count 0 other than the root
    of the empty tree always has children; and when the tree has a record
    and the weights sum to zero, [Rings(tree)] fails with
    [ZeroDivisionError].  Where the division succeeds, a child of count 0
    is given the width 0. *)
Theorem zero_weight_partition :
  (∀ t p w, count (root (add t p w)) = count (root t) + w)
  ∧ (∀ records q m,
       q ≠ [] → descend q (root (build records)) = Some m →
       cls m = NodeClass → children m ≠ ∅)
  ∧ (∀ records,
       records ≠ [] → total_weight records = 0 →
       Rings (build records) = Raise ZeroDivisionError)
  ∧ (∀ n node_size offset spans sp c,
       spans_of n node_size offset = Return spans →
       sp ∈ spans → children n !! sp.1.1 = Some c → count c = 0 →
       (sp.1.2 == 0)%Q).
Proof.
  split; [intros; apply count_add_clades|].
  split.
  { intros records [|k q] m Hq Hm Hcls; [done|].
    eapply (below_have_children_build_from records Tree_init); [|exact Hm|done].
    intros k1 q1 m1 Hq1. simpl in Hq1. by rewrite lookup_empty in Hq1. }
  split.
  { intros records Hne Hsum. unfold Rings. rewrite dfs_zero_root; [done| |].
    - unfold build. by rewrite count_root_build_from.
    - by apply children_root_build_nonempty. }
  intros. by eapply zero_child_span.
Qed.

Lemma zero_weight_partition_witness :
  Rings (build [(["a"], 0)]) = Raise ZeroDivisionError
  ∧ (∀ m, descend ["a"] (root (build [(["a"], 0)])) = Some m →
          cls m = NodeClass → children m ≠ ∅).
Proof.
  destruct zero_weight_partition as (_ & Hchildren & Hzero & _).
  split.
  - apply Hzero; [discriminate|reflexivity].
  - intros m. apply Hchildren. discriminate.
Defined.

(** ** The script on an empty input *)

(** C7 (the code at the failing input).  With no record the label list is
    empty: the constructor of [CircleDiagram] computes no colour, divides
    by nothing and adds the text style only.  [Rings(tree)] then visits
    the root, which has no child, and raises [AttributeError] at the read
    of [node.letter]: the script stops before any ring is drawn and before
    the output file is written. *)
Theorem main_empty_input sin cos str_float hls_to_rgb hex2 (template_file : string) :
  (∃ d, CircleDiagram_init hls_to_rgb hex2
          (Svg_init template_file (MAX_RINGS * RING_DEPTH * 2) (MAX_RINGS * RING_DEPTH * 2))
          (merge_sort String.le (elements (clades (build [])))) = Return d
        ∧ styles (svg d) = ["text{fill:#555555;font-family:Helvetica;font-size:10px;}"]
        ∧ content (svg d) = [])
  ∧ Rings (build []) = Raise AttributeError
  ∧ main sin cos str_float hls_to_rgb hex2 [] template_file = Raise AttributeError.
Proof.
  split; [eexists; split; [reflexivity|split; reflexivity]|].
  split; reflexivity.
Qed.

(** ** Label placement *)

Lemma far_sym a b : far a b → far b a.
Proof.
  unfold far, dist2. intros H.
  eapply Qle_trans; [exact H|]. apply Qle_lteq. right. ring.
Qed.

Lemma is_room_true occupied x y :
  is_room occupied x y = true → Forall (λ o, far o (x, y)) occupied.
Proof.
  induction occupied as [|[ox oy] occupied IH]; simpl; [constructor|].
  destruct (Qlt_le_dec _ _) as [|Hle]; [done|].
  intros Hroom. constructor; [exact Hle|by apply IH].
Qed.

Lemma is_room_false occupied x y :
  is_room occupied x y = false → Exists (λ o, ¬ far o (x, y)) occupied.
Proof.
  induction occupied as [|[ox oy] occupied IH]; simpl; [done|].
  destruct (Qlt_le_dec _ _) as [Hlt|]; intros Hroom.
  - apply Exists_cons_hd. unfold far, dist2. simpl. by apply Qlt_not_le.
  - apply Exists_cons_tl. by apply IH.
Qed.

Lemma all_far_snoc l b :
  all_far l → Forall (λ a, far a b) l → all_far (l ++ [b]).
Proof.
  induction l as [|a l IH]; simpl; [done|].
  intros [Ha Hl] [Hab Hlb]%Forall_cons. split.
  - apply Forall_app. split; [done|by constructor].
  - by apply IH.
Qed.

Lemma all_far_lookup l : all_far l →
  ∀ i j a b, (i < j)%nat → l !! i = Some a → l !! j = Some b → far a b.
Proof.
  induction l as [|x l IH]; intros Hl i j a b Hij Hi Hj; [done|].
  destruct Hl as [Hx Hl]. destruct j as [|j]; [lia|].
  destruct i as [|i]; simpl in *.
  - injection Hi as <-. rewrite Forall_lookup in Hx. by eapply Hx.
  - apply (IH Hl i j); [lia|done|done].
Qed.

Section placement.
Variable str_float : Q → string.

Lemma place_spec coords : ∀ doc occupied,
  all_far occupied →
  ∃ placed,
    sublist placed coords
    ∧ content (place str_float doc occupied coords).1
      = content doc ++ (label_text str_float <$> placed)
    ∧ (place str_float doc occupied coords).2 = occupied ++ (anchor <$> placed)
    ∧ all_far (occupied ++ (anchor <$> placed)).
Proof.
  induction coords as [|[[[clade sz] x] y] coords IH]; intros doc occupied Hocc.
  - exists []. simpl. rewrite !app_nil_r. repeat split; [constructor|done].
  - simpl. destruct (is_room occupied x y) eqn:Hroom.
    + destruct (IH (add_text str_float doc (upper clade) x y) (occupied ++ [(x, y)]))
        as (placed & Hsub & Hcontent & Hocc' & Hfar).
      { apply all_far_snoc; [done|by apply is_room_true]. }
      exists ((clade, sz, x, y) :: placed).
      rewrite Hcontent, Hocc'. simpl. rewrite <-!app_assoc. simpl.
      repeat split; [by constructor|]. by rewrite <-app_assoc in Hfar.
    + destruct (IH doc occupied Hocc) as (placed & Hsub & Hcontent & Hocc' & Hfar).
      exists placed. repeat split; [by constructor|done..].
Qed.
End placement.

(** *** Labels of different rings *)

Lemma Qsquare_nonneg (x : Q) : (0 <= x * x)%Q.
Proof. destruct (Qlt_le_dec x 0); nra. Qed.

Lemma ring_gap (s1 c1 s2 c2 r1 r2 cx cy : Q) :
  (s1 ^ 2 + c1 ^ 2 == 1 → s2 ^ 2 + c2 ^ 2 == 1 →
   0 <= r1 → 0 <= r2 → 100 <= (r1 - r2) ^ 2 →
   100 <= ((cx + s1 * r1 - 4) - (cx + s2 * r2 - 4)) ^ 2
          + ((cy + - c1 * r1 + 4) - (cy + - c2 * r2 + 4)) ^ 2)%Q.
Proof.
  intros H1 H2 Hr1 Hr2 Hgap.
  assert (s1 * s1 + c1 * c1 == 1)%Q as H1' by (rewrite <-H1; ring).
  assert (s2 * s2 + c2 * c2 == 1)%Q as H2' by (rewrite <-H2; ring).
  pose proof (Qsquare_nonneg (s1 - s2)) as Hs.
  pose proof (Qsquare_nonneg (c1 - c2)) as Hc.
  assert (s1 * s2 + c1 * c2 <= 1)%Q as Ht by lra.
  assert (0 <= r1 * r2)%Q as Hr by nra.
  assert (r1 * r2 * (s1 * s2 + c1 * c2) <= r1 * r2)%Q as Hm by nra.
  assert (((cx + s1 * r1 - 4) - (cx + s2 * r2 - 4)) ^ 2
          + ((cy + - c1 * r1 + 4) - (cy + - c2 * r2 + 4)) ^ 2
          == r1 * r1 * (s1 * s1 + c1 * c1) + r2 * r2 * (s2 * s2 + c2 * c2)
             - 2 * (r1 * r2 * (s1 * s2 + c1 * c2)))%Q as -> by ring.
  rewrite H1', H2'.
  assert ((r1 - r2) ^ 2 == r1 * r1 + r2 * r2 - 2 * (r1 * r2))%Q as Hg by ring.
  rewrite Hg in Hgap. lra.
Qed.

Lemma level_gap (l1 l2 : Z) :
  l1 ≠ l2 →
  (100 <= (ring_radius l1 - ring_radius l2) ^ 2)%Q.
Proof.
  intros Hne. unfold ring_radius.
  assert (1 <= inject_Z ((l1 - l2) * (l1 - l2)))%Q as H.
  { change 1%Q with (inject_Z 1). rewrite <-Zle_Qle. nia. }
  assert ((inject_Z RING_DEPTH * (inject_Z l1 + (1 # 2))
           - inject_Z RING_DEPTH * (inject_Z l2 + (1 # 2))) ^ 2
          == 10000 * inject_Z ((l1 - l2) * (l1 - l2)))%Q as ->.
  { rewrite !inject_Z_mult. unfold Z.sub. rewrite !inject_Z_plus, inject_Z_opp.
    change (inject_Z RING_DEPTH) with 100%Q. ring. }
  lra.
Qed.

Lemma ring_radius_nonneg (l : Z) : 0 ≤ l → (0 <= ring_radius l)%Q.
Proof.
  intros Hl. unfold ring_radius.
  assert (0 <= inject_Z l)%Q by (change 0%Q with (inject_Z 0); by rewrite <-Zle_Qle).
  change (inject_Z RING_DEPTH) with 100%Q. lra.
Qed.

Lemma elem_of_insert_by_size c x l : c ∈ insert_by_size x l → c = x ∨ c ∈ l.
Proof.
  induction l as [|d l IH]; simpl.
  - set_solver.
  - destruct (Qle_bool _ _); [set_solver|].
    rewrite !elem_of_cons. intros [->|H]; [auto|]. destruct (IH H); auto.
Qed.

Lemma elem_of_sort_by_size c l : c ∈ sort_by_size l → c ∈ l.
Proof.
  induction l as [|x l IH]; simpl; [done|].
  intros [->|H]%elem_of_insert_by_size; [set_solver|].
  apply elem_of_cons. right. by apply IH.
Qed.

Lemma anchor_clade_coords sin cos center radius all_clades c :
  c ∈ clade_coords sin cos center radius all_clades →
  ∃ a, anchor c = (center.1 + sin a * radius - 4, center.2 + - cos a * radius + 4)%Q.
Proof.
  unfold clade_coords. intros [[[clade start_angle] end_angle] [-> _]]%list_elem_of_fmap.
  by exists ((start_angle + end_angle) / 2)%Q.
Qed.

Lemma rings_far sin cos center level1 level2 cl1 cl2 c1 c2 :
  (∀ a, sin a ^ 2 + cos a ^ 2 == 1)%Q →
  0 ≤ level1 → 0 ≤ level2 → level1 ≠ level2 →
  c1 ∈ clade_coords sin cos center (ring_radius level1) cl1 →
  c2 ∈ clade_coords sin cos center (ring_radius level2) cl2 →
  far (anchor c1) (anchor c2).
Proof.
  intros Hunit H1 H2 Hne [a1 ->]%anchor_clade_coords [a2 ->]%anchor_clade_coords.
  unfold far, dist2. simpl.
  change (inject_Z (LETTER_SPACING ^ 2)) with 100%Q.
  apply ring_gap; auto using ring_radius_nonneg, level_gap.
Qed.

(** C8.  The labels that one call of [_draw_clades] adds to the document
    are those of a sublist [placed] of the candidates of the ring, taken by
    decreasing size; the anchors of any two of them have a squared
    distance of at least [LETTER_SPACING ** 2], each label having been
    tested against all the labels placed before it.  Labels of different
    rings are not tested against each other, but their anchors lie on
    circles whose radii differ by [RING_DEPTH] at least: with
    [sin(a)**2 + cos(a)**2 = 1] a label of this ring is as far from every
    candidate of another ring. *)
Theorem labels_do_not_overlap sin cos str_float (d : CircleDiagram) (level : Z)
    (all_clades : list (string * Q * Q)) :
  ∃ placed : list clade_coord,
    sublist placed
      (sort_by_size (clade_coords sin cos (center d) (ring_radius level) all_clades))
    ∧ content (svg (_draw_clades sin cos str_float d level all_clades))
      = content (svg d) ++ (label_text str_float <$> placed)
    ∧ all_far (anchor <$> placed)
    ∧ (∀ i j a b,
         i ≠ j → (anchor <$> placed) !! i = Some a → (anchor <$> placed) !! j = Some b →
         (inject_Z (LETTER_SPACING ^ 2) <= dist2 a b)%Q)
    ∧ ((∀ a, sin a ^ 2 + cos a ^ 2 == 1)%Q → 0 ≤ level →
       ∀ level' all_clades' c c',
         0 ≤ level' → level' ≠ level →
         c ∈ placed →
         c' ∈ clade_coords sin cos (center d) (ring_radius level') all_clades' →
         (inject_Z (LETTER_SPACING ^ 2) <= dist2 (anchor c) (anchor c'))%Q).
Proof.
  unfold _draw_clades.
  destruct (place_spec str_float
              (sort_by_size (clade_coords sin cos (center d) (ring_radius level) all_clades))
              (svg d) [] I) as (placed & Hsub & Hcontent & _ & Hfar).
  simpl in Hfar. exists placed.
  destruct (place _ _ _ _) as [svg' occ'] eqn:Hplace. simpl in *.
  split; [done|]. split; [done|]. split; [done|]. split.
  - intros i j a b Hij Hi Hj.
    destruct (decide (i < j)%nat).
    + by apply (all_far_lookup _ Hfar i j).
    + apply far_sym. apply (all_far_lookup _ Hfar j i); [lia|done..].
  - intros Hunit Hlevel level' all_clades' c c' Hlevel' Hne Hc Hc'.
    eapply (rings_far sin cos (center d) level level'); eauto.
    apply elem_of_sort_by_size. by eapply elem_of_sublist.
Qed.

Lemma labels_do_not_overlap_witness :
  ∃ placed : list clade_coord,
    content (svg (_draw_clades (λ _, 0%Q) (λ _, 1%Q) (λ _, "0")
                    (mk_CircleDiagram 0 (mk_Svg "" [] []) (2000, 2000)%Q (0, 0)%Q [] ∅)
                    1 [("a", 0, 1)%Q; ("b", 0, 2)%Q]))
    = label_text (λ _, "0") <$> placed
    ∧ (∀ c c', c ∈ placed →
         c' ∈ clade_coords (λ _, 0%Q) (λ _, 1%Q) (2000, 2000)%Q (ring_radius 2)
                [("c", 0, 1)%Q] →
         (inject_Z (LETTER_SPACING ^ 2) <= dist2 (anchor c) (anchor c'))%Q).
Proof.
  destruct (labels_do_not_overlap (λ _, 0%Q) (λ _, 1%Q) (λ _, "0")
              (mk_CircleDiagram 0 (mk_Svg "" [] []) (2000, 2000)%Q (0, 0)%Q [] ∅)
              1 [("a", 0, 1)%Q; ("b", 0, 2)%Q]) as (placed & _ & Hcontent & _ & _ & Hrings).
  exists placed. split; [exact Hcontent|].
  intros c c' Hc Hc'.
  apply (Hrings ltac:(intros; reflexivity) ltac:(lia) 2 [("c", 0, 1)%Q] c c');
    [lia|lia|done|done].
Defined.

(** ** Svg.save *)

Lemma append_nil (s : string) : "" +:+ s = s.
Proof. reflexivity. Qed.

Lemma append_cons c (s t : string) : String c s +:+ t = String c (s +:+ t).
Proof. reflexivity. Qed.

Lemma append_assoc (s1 s2 s3 : string) : (s1 +:+ s2) +:+ s3 = s1 +:+ (s2 +:+ s3).
Proof.
  induction s1 as [|c s1 IH]; [done|]. rewrite !append_cons. by f_equal.
Qed.

Lemma strip_prefix_Some p : ∀ s r, strip_prefix p s = Some r ↔ s = p +:+ r.
Proof.
  induction p as [|a p IH]; intros s r.
  - rewrite append_nil. simpl. split; [by intros [= ->]|by intros ->].
  - rewrite append_cons. destruct s as [|b s]; simpl; [done|].
    case_decide as Hab.
    + subst b. rewrite IH. split; [by intros ->|by intros [= ->]].
    + split; [done|]. intros [= ? _]. done.
Qed.

Lemma strip_prefix_app p r : strip_prefix p (p +:+ r) = Some r.
Proof. by apply strip_prefix_Some. Qed.

Lemma find_sep_unfold sep s :
  find_sep sep s =
  match strip_prefix sep s with
  | Some rest => Some (EmptyString, rest)
  | None =>
      match s with
      | EmptyString => None
      | String c s' =>
          match find_sep sep s' with
          | Some (before, after) => Some (String c before, after)
          | None => None
          end
      end
  end.
Proof. destruct s; reflexivity. Qed.

Lemma find_sep_Some sep s : ∀ before after,
  find_sep sep s = Some (before, after) → s = before +:+ sep +:+ after.
Proof.
  induction s as [|c s IH]; intros before after; rewrite find_sep_unfold.
  - destruct (strip_prefix sep "") as [rest|] eqn:Hp; [|done].
    intros [= <- <-]. by apply strip_prefix_Some in Hp.
  - destruct (strip_prefix sep (String c s)) as [rest|] eqn:Hp.
    + intros [= <- <-]. by apply strip_prefix_Some in Hp.
    + destruct (find_sep sep s) as [[b a]|]; [|done].
      intros [= <- <-]. rewrite append_cons. f_equal. by apply IH.
Qed.

Lemma find_sep_occurs sep before : ∀ after,
  is_Some (find_sep sep (before +:+ sep +:+ after)).
Proof.
  induction before as [|c before IH]; intros after; rewrite find_sep_unfold.
  - rewrite append_nil, strip_prefix_app. by eexists.
  - rewrite append_cons. destruct (strip_prefix sep _); [by eexists|].
    destruct (IH after) as [[b a] ->]. by eexists.
Qed.

Lemma find_sep_None sep s : find_sep sep s = None ↔ ¬ occurs sep s.
Proof.
  split.
  - intros Hnone (before & after & ->).
    destruct (find_sep_occurs sep before after) as [x Hx]. congruence.
  - intros Hocc. destruct (find_sep sep s) as [[b a]|] eqn:Hf; [|done].
    destruct Hocc. exists b, a. by apply find_sep_Some.
Qed.

Lemma split_fuel_unfold fuel sep s :
  split_fuel fuel sep s =
  match find_sep sep s with
  | None => [s]
  | Some (before, after) =>
      match fuel with
      | O => [before; after]
      | S fuel' => before :: split_fuel fuel' sep after
      end
  end.
Proof. destruct fuel; reflexivity. Qed.

(** What [split] returns, as far as the pattern of [save] looks at it. *)
Lemma split_shape sep s :
  sep ≠ "" →
  ∃ l, split sep s = Return l
       ∧ match find_sep sep s with
         | None => l = [s]
         | Some (before, after) =>
             match find_sep sep after with
             | None => l = [before; after]
             | Some _ => (3 ≤ length l)%nat
             end
         end.
Proof.
  intros Hsep. unfold split. rewrite decide_False by done.
  eexists. split; [reflexivity|].
  rewrite split_fuel_unfold.
  destruct (find_sep sep s) as [[b a]|] eqn:Hf; [|done].
  destruct (String.length s) as [|f] eqn:Hlen.
  { destruct s; [|done]. rewrite find_sep_unfold in Hf.
    destruct sep; [done|]. done. }
  rewrite split_fuel_unfold.
  destruct (find_sep sep a) as [[b2 a2]|]; [|done].
  destruct f as [|f]; [simpl; lia|].
  rewrite split_fuel_unfold. destruct (find_sep sep a2) as [[]|]; [|simpl; lia].
  destruct f; simpl; lia.
Qed.





Lemma Svg_save_cases (doc : Svg) :
  match find_sep "%style%" (template doc) with
  | Some (part1, tmp) =>
      match find_sep "%style%" tmp, find_sep "%substance%" tmp with
      | None, Some (part2, part3) =>
          match find_sep "%substance%" part3 with
          | None =>
              Svg_save doc
              = Return (part1 +:+ String.concat "" (styles doc) +:+ part2
                        +:+ String.concat "" (content doc) +:+ part3)
          | Some _ => Svg_save doc = Raise ValueError
          end
      | _, _ => Svg_save doc = Raise ValueError
      end
  | None => Svg_save doc = Raise ValueError
  end.
Proof.
  unfold Svg_save, mbind, result_bind, rbind, split.
  rewrite !decide_False by done.
  destruct (split_shape "%style%" (template doc)) as (l & Hsplit & Hl); [done|].
  unfold split in Hsplit. rewrite decide_False in Hsplit by done.
  injection Hsplit as Hsplit. rewrite Hsplit. clear Hsplit.
  destruct (find_sep "%style%" (template doc)) as [[part1 tmp]|]; [|by subst l].
  destruct (find_sep "%style%" tmp) as [[]|].
  { destruct (find_sep "%substance%" tmp) as [[]|];
      destruct l as [|? [|? [|? ?]]]; simpl in Hl; try lia; done. }
  subst l. rewrite decide_False by done.
  destruct (split_shape "%substance%" tmp) as (l & Hsplit & Hl); [done|].
  unfold split in Hsplit. rewrite decide_False in Hsplit by done.
  injection Hsplit as Hsplit. rewrite Hsplit. clear Hsplit.
  destruct (find_sep "%substance%" tmp) as [[part2 part3]|]; [|by subst l].
  destruct (find_sep "%substance%" part3) as [[]|]; [|by subst l].
  destruct l as [|? [|? [|? ?]]]; simpl in Hl; try lia; done.
Qed.



(* ================================================================== *)
(** * Further properties of the code *)

(** ** Tree.add: one insertion *)

Lemma prefix_cons_iff (k c : string) (q p : list string) :
  (k :: q) `prefix_of` (c :: p) ↔ k = c ∧ q `prefix_of` p.
Proof.
  split.
  - intros [r Hr]. injection Hr as -> ->. split; [done|by exists r].
  - intros [-> [r ->]]. by exists r.
Qed.

Lemma descend_add_is_Some q : ∀ n p w,
  END ∉ q →
  is_Some (descend q (add_clades n p w)) ↔ is_Some (descend q n) ∨ q `prefix_of` p.
Proof.
  induction q as [|k q IH]; intros n p w Hq.
  - split; [intros _; left; by eexists|intros _; by eexists].
  - assert (k ≠ END) by set_solver. assert (END ∉ q) by set_solver.
    destruct p as [|c p].
    + rewrite descend_add_nil, decide_False by done.
      split; [by left|]. intros [?|Hp]; [done|]. by apply prefix_nil_not in Hp.
    + rewrite descend_add_cons, prefix_cons_iff. case_decide as Hk.
      * subst k. rewrite IH by done. simpl.
        destruct (children n !! c) as [c0|]; simpl; [naive_solver|].
        split.
        -- intros [[m Hm]|Hp]; [|by auto].
           apply descend_Node in Hm as [-> _]. right. split; [done|apply prefix_nil].
        -- intros [[? [=]]|[_ Hp]]. by right.
      * split; [by left|]. intros [?|[? _]]; done.
Qed.

Lemma count_descend_add q : ∀ n p w,
  END ∉ q →
  from_option count 0 (descend q (add_clades n p w))
  = from_option count 0 (descend q n) + (if decide (q `prefix_of` p) then w else 0).
Proof.
  induction q as [|k q IH]; intros n p w Hq.
  - rewrite decide_True by apply prefix_nil. simpl. apply count_add_clades.
  - assert (k ≠ END) by set_solver. assert (END ∉ q) by set_solver.
    destruct p as [|c p].
    + rewrite descend_add_nil, decide_False by done.
      rewrite decide_False by apply prefix_nil_not. lia.
    + rewrite descend_add_cons. case_decide as Hk.
      * subst k. rewrite IH by done. simpl.
        assert (from_option count 0 (descend q (default (Node c) (children n !! c)))
                = from_option count 0
                    match children n !! c with Some c0 => descend q c0 | None => None end)
          as ->.
        { destruct (children n !! c); simpl; [done|]. destruct q; simpl; [done|].
          by rewrite lookup_empty. }
        destruct (decide (q `prefix_of` p)) as [Hp|Hp].
        -- rewrite decide_True by (by apply prefix_cons_iff). done.
        -- rewrite decide_False by (rewrite prefix_cons_iff; naive_solver). done.
      * rewrite decide_False by (rewrite prefix_cons_iff; naive_solver). lia.
Qed.

(** X1.  What one call of [add] does to the nodes that are reached without
    the key [$]: such a node is in the tree afterwards exactly when it was
    there before or lies on the path that was added, and its count is its
    count before (0 for a new node) plus the weight when it lies on the
    path, unchanged otherwise. *)
Theorem add_lookup (t : Tree) (p q : list string) (w : Z) :
  END ∉ q →
  (is_Some (descend q (root (add t p w)))
   ↔ is_Some (descend q (root t)) ∨ q `prefix_of` p)
  ∧ from_option count 0 (descend q (root (add t p w)))
    = from_option count 0 (descend q (root t))
      + (if decide (q `prefix_of` p) then w else 0).
Proof.
  intros Hq. split; [by apply descend_add_is_Some|by apply count_descend_add].
Qed.

Lemma add_lookup_witness :
  is_Some (descend ["a"; "b"] (root (add (add Tree_init ["a"] 3) ["a"; "b"; "c"] 4)))
  ∧ from_option count 0
      (descend ["a"] (root (add (add Tree_init ["a"] 3) ["a"; "b"; "c"] 4))) = 3 + 4.
Proof.
  destruct (add_lookup (add Tree_init ["a"] 3) ["a"; "b"; "c"] ["a"; "b"] 4) as [Hex _].
  { vm_compute. set_solver. }
  destruct (add_lookup (add Tree_init ["a"] 3) ["a"; "b"; "c"] ["a"] 4) as [_ Hcount].
  { vm_compute. set_solver. }
  split.
  - apply Hex. right. by exists ["c"].
  - rewrite Hcount. reflexivity.
Defined.

(** X2.  [add] touches nothing off the path it walks: a sequence of keys
    that leaves the added path, or that goes on below its last node by a
    key other than [$], leads to the same node, with the same subtree, as
    before the call. *)
Theorem add_frame (t : Tree) (p q : list string) (w : Z) :
  ¬ q `prefix_of` p → ¬ (p ++ [END]) `prefix_of` q →
  descend q (root (add t p w)) = descend q (root t).
Proof.
  unfold add. simpl root. generalize (root t). clear t. revert p.
  induction q as [|k q IH]; intros p n Hqp Hpq.
  - destruct Hqp. apply prefix_nil.
  - destruct p as [|c p].
    + rewrite descend_add_nil, decide_False; [done|].
      intros ->. apply Hpq. simpl. apply prefix_cons, prefix_nil.
    + rewrite descend_add_cons. case_decide as Hk; [subst k|done].
      rewrite IH.
      * simpl. destruct (children n !! c); simpl; [done|].
        destruct q; simpl; [|by rewrite lookup_empty].
        destruct Hqp. apply prefix_cons, prefix_nil.
      * intros Hp. apply Hqp. by apply prefix_cons.
      * intros Hp. apply Hpq. simpl. by apply prefix_cons.
Qed.

Lemma add_frame_witness :
  descend ["a"; "x"] (root (add (add Tree_init ["a"; "x"; "y"] 3) ["a"; "b"] 4))
  = descend ["a"; "x"] (root (add Tree_init ["a"; "x"; "y"] 3)).
Proof.
  apply (add_frame (add Tree_init ["a"; "x"; "y"] 3) ["a"; "b"] ["a"; "x"] 4).
  - intros [r Hr]. discriminate Hr.
  - intros [r Hr]. discriminate Hr.
Defined.

(** ** Tree.add: the tree of a sequence of records *)

Lemma clade_add_clades n p w : clade (add_clades n p w) = clade n.
Proof. destruct p; reflexivity. Qed.

Lemma last_key_cons k q : q ≠ [] → last_key (k :: q) = last_key q.
Proof. destruct q; [done|]. intros _. unfold last_key. by rewrite last_cons_cons. Qed.

Lemma labelled_Node c : labelled (Node c).
Proof.
  intros q m _ Hne Hq. apply descend_Node in Hq as [-> _]. done.
Qed.

Lemma labelled_add p : ∀ n w, labelled n → labelled (add_clades n p w).
Proof.
  induction p as [|c p IH]; intros n w Hn [|k q] m Hq Hne Hm; try done.
  - assert (k ≠ END) by set_solver.
    rewrite descend_add_nil, decide_False in Hm by done. by apply Hn.
  - assert (k ≠ END) by set_solver. assert (END ∉ q) by set_solver.
    rewrite descend_add_cons in Hm. case_decide as Hk; [subst k|by apply Hn].
    assert (cls (default (Node c) (children n !! c)) = NodeClass
            ∧ clade (default (Node c) (children n !! c)) = c
            ∧ labelled (default (Node c) (children n !! c))) as (Hcls & Hclade & Hlab).
    { destruct (children n !! c) as [c0|] eqn:Hc0; simpl.
      - destruct (Hn [c] c0) as [Hcl Hcd]; [set_solver|done|by simpl; rewrite Hc0|].
        split; [done|]. split; [exact Hcd|].
        intros q' m' Hq' Hne' Hm'. rewrite <-(last_key_cons c) by done.
        apply Hn; [set_solver|done|]. simpl. by rewrite Hc0.
      - split; [done|]. split; [done|]. apply labelled_Node. }
    destruct q as [|k' q'].
    + injection Hm as <-. by rewrite cls_add_clades, clade_add_clades.
    + rewrite last_key_cons by done. by apply (IH _ w Hlab).
Qed.

Lemma labelled_build rs : labelled (root (build rs)).
Proof.
  unfold build. generalize Tree_init (labelled_Node START : labelled (root Tree_init)).
  induction rs as [|[p w] rs IH]; intros t Ht; [done|].
  apply IH. simpl. by apply labelled_add.
Qed.

Lemma clade_root_build_from rs : ∀ t, clade (root (build_from t rs)) = clade (root t).
Proof.
  induction rs as [|[p w] rs IH]; intros t; [done|].
  simpl. rewrite IH. simpl. apply clade_add_clades.
Qed.

Lemma build_snoc rs p w : build (rs ++ [(p, w)]) = add (build rs) p w.
Proof. apply root_build_from_snoc. Qed.

(** X3.  Nodes are created at the prefixes of the paths and nowhere else: a
    non-empty sequence of keys without [$] leads to a node of the tree
    exactly when it is a prefix of the path of some record.  Every such
    node is a [Node] whose label is the key it is stored under; the root
    is a [Node] labelled [START]. *)
Theorem nodes_are_prefixes (records : list record) (q : list string) :
  END ∉ q →
  (q ≠ [] →
   (is_Some (descend q (root (build records)))
    ↔ ∃ r, r ∈ records ∧ q `prefix_of` r.1))
  ∧ (∀ m, descend q (root (build records)) = Some m →
          cls m = NodeClass ∧ clade m = last_key q).
Proof.
  intros Hq. split.
  - intros Hne. induction records as [|[p w] records IH] using rev_ind.
    + split.
      * intros [m Hm]. apply descend_Node in Hm as [-> _]. done.
      * intros (r & Hr & _). by apply elem_of_nil in Hr.
    + rewrite build_snoc. unfold add. simpl root.
      rewrite descend_add_is_Some, IH by done. split.
      * intros [(r & Hr & Hp)|Hp].
        -- exists r. split; [|done]. apply elem_of_app. by left.
        -- exists (p, w). split; [|done]. apply elem_of_app. right. by left.
      * intros (r & [Hr| ->%list_elem_of_singleton]%elem_of_app & Hp).
        -- left. by exists r.
        -- by right.
  - intros m Hm. destruct q as [|k q].
    + injection Hm as <-. unfold build.
      by rewrite cls_root_build_from, clade_root_build_from.
    + by apply (labelled_build records (k :: q) m).
Qed.

Lemma nodes_are_prefixes_witness :
  is_Some (descend ["A"; "C"] (root (build [(["A"], 3); (["A"; "C"; "D"], 5)]))).
Proof.
  destruct (nodes_are_prefixes [(["A"], 3); (["A"; "C"; "D"], 5)] ["A"; "C"]) as [H _].
  { vm_compute. set_solver. }
  apply H; [discriminate|].
  exists (["A"; "C"; "D"], 5). split; [set_solver|by exists ["D"]].
Defined.

Lemma through_weight_snoc q rs p w :
  through_weight q (rs ++ [(p, w)])
  = through_weight q rs + (if decide (q `prefix_of` p) then w else 0).
Proof.
  induction rs as [|r rs IH]; simpl.
  - case_decide; lia.
  - rewrite IH. repeat case_decide; lia.
Qed.

Lemma count_through_weight (records : list record) (q : list string) :
  END ∉ q →
  from_option count 0 (descend q (root (build records))) = through_weight q records.
Proof.
  intros Hq. induction records as [|[p w] records IH] using rev_ind.
  - destruct q; simpl; [done|]. by rewrite lookup_empty.
  - rewrite build_snoc, through_weight_snoc. unfold add. simpl root.
    rewrite count_descend_add by done. by rewrite IH.
Qed.

(** X4.  The count of a node is the total weight of the records whose path
    passes through it: for a sequence of keys [q] without [$], the node at
    [q] has as count the sum of the weights of the records of which [q] is
    a prefix, and there is no node at [q] only if that sum is over no
    record at all.  Labels [$] in other paths do not disturb this. *)
Theorem count_is_through_weight (records : list record) (q : list string) :
  END ∉ q →
  from_option count 0 (descend q (root (build records))) = through_weight q records
  ∧ (∀ m, descend q (root (build records)) = Some m →
          count m = through_weight q records).
Proof.
  intros Hq. pose proof (count_through_weight records q Hq) as Hcount.
  split; [done|]. intros m Hm. by rewrite Hm in Hcount.
Qed.

Lemma count_is_through_weight_witness :
  from_option count 0
    (descend ["a"] (root (build [(["a"; "$"], 5); (["a"], 3); (["b"], 7)])))
  = through_weight ["a"] [(["a"; "$"], 5); (["a"], 3); (["b"], 7)].
Proof.
  destruct (count_is_through_weight [(["a"; "$"], 5); (["a"], 3); (["b"], 7)] ["a"])
    as [H _]; [|exact H].
  vm_compute. set_solver.
Defined.

(** X5.  The vocabulary: a label is in [tree.clades] exactly when it occurs
    in the path of some record, and the list [sorted(tree.clades)] that the
    script hands to [CircleDiagram] holds each of these labels once, in
    increasing order. *)
Theorem clades_are_the_labels (records : list record) :
  (∀ l, l ∈ clades (build records) ↔ ∃ r, r ∈ records ∧ l ∈ r.1)
  ∧ NoDup (merge_sort String.le (elements (clades (build records))))
  ∧ Sorted String.le (merge_sort String.le (elements (clades (build records))))
  ∧ (∀ l, l ∈ merge_sort String.le (elements (clades (build records)))
          ↔ l ∈ clades (build records)).
Proof.
  split; [|split; [|split]].
  - intros l. induction records as [|[p w] records IH] using rev_ind.
    + split; [set_solver|]. intros (r & Hr & _). by apply elem_of_nil in Hr.
    + rewrite build_snoc. unfold add. simpl clades.
      rewrite elem_of_union, IH, elem_of_list_to_set. split.
      * intros [(r & Hr & Hl)|Hl].
        -- exists r. split; [|done]. apply elem_of_app. by left.
        -- exists (p, w). split; [|done]. apply elem_of_app. right. by left.
      * intros (r & [Hr| ->%list_elem_of_singleton]%elem_of_app & Hl).
        -- left. by exists r.
        -- by right.
  - rewrite merge_sort_Permutation. apply NoDup_elements.
  - apply (Sorted_merge_sort String.le).
  - intros l. rewrite merge_sort_Permutation. apply elem_of_elements.
Qed.

(** ** Rings._dfs on the tree of a sequence of records *)













(** ** CircleDiagram._draw_clades: the order and the choice of the labels *)

Lemma insert_by_size_Permutation x l : insert_by_size x l ≡ₚ x :: l.
Proof.
  induction l as [|d l IH]; simpl; [done|].
  destruct (Qle_bool _ _); [done|]. rewrite IH. apply perm_swap.
Qed.

Lemma sort_by_size_Permutation l : sort_by_size l ≡ₚ l.
Proof.
  induction l as [|x l IH]; simpl; [done|].
  by rewrite insert_by_size_Permutation, IH.
Qed.

Lemma size_ge_trans a b c : size_ge a b → size_ge b c → size_ge a c.
Proof. unfold size_ge. intros. by eapply Qle_trans. Qed.

Lemma insert_by_size_sorted x l :
  StronglySorted size_ge l → StronglySorted size_ge (insert_by_size x l).
Proof.
  induction 1 as [|d l Hl IH Hd]; simpl.
  - repeat constructor.
  - destruct (Qle_bool d.1.1.2 x.1.1.2) eqn:Hle.
    + apply Qle_bool_iff in Hle. constructor; [by constructor|].
      constructor; [done|]. eapply Forall_impl; [exact Hd|].
      intros c Hc. by apply (size_ge_trans x d c).
    + constructor; [done|].
      rewrite insert_by_size_Permutation. constructor; [|done].
      unfold size_ge. destruct (Qlt_le_dec x.1.1.2 d.1.1.2) as [Hlt|Hge].
      * by apply Qlt_le_weak.
      * apply Qle_bool_iff in Hge. congruence.
Qed.

(** X7.  The sort of [_draw_clades] keeps the candidates and orders them:
    the sorted list is a permutation of the list of candidates, and every
    candidate in it has a size at least as large as all those after it. *)
Theorem candidates_sorted_by_size (l : list clade_coord) :
  sort_by_size l ≡ₚ l
  ∧ StronglySorted size_ge (sort_by_size l)
  ∧ (∀ i j a b, (i < j)%nat →
       sort_by_size l !! i = Some a → sort_by_size l !! j = Some b →
       (b.1.1.2 <= a.1.1.2)%Q).
Proof.
  assert (StronglySorted size_ge (sort_by_size l)) as Hsorted.
  { induction l as [|x l IH]; simpl; [constructor|by apply insert_by_size_sorted]. }
  split; [apply sort_by_size_Permutation|]. split; [done|].
  revert Hsorted. generalize (sort_by_size l). clear l.
  intros l Hl. induction Hl as [|x l _ IH Hx]; intros i j a b Hij Hi Hj; [done|].
  destruct j as [|j]; [lia|]. destruct i as [|i]; simpl in *.
  - injection Hi as <-. rewrite Forall_lookup in Hx. by apply (Hx j b).
  - apply (IH i j); [lia|done..].
Qed.

Section greedy.
Variable str_float : Q → string.

Lemma place_frame coords : ∀ doc occupied,
  template (place str_float doc occupied coords).1 = template doc
  ∧ styles (place str_float doc occupied coords).1 = styles doc.
Proof.
  induction coords as [|[[[clade sz] x] y] coords IH]; intros doc occupied; [done|].
  simpl. destruct (is_room occupied x y); [|apply IH].
  destruct (IH (add_text str_float doc (upper clade) x y) (occupied ++ [(x, y)]))
    as [-> ->]. done.
Qed.

Lemma place_greedy coords : ∀ doc occupied,
  ∃ placed,
    content (place str_float doc occupied coords).1
    = content doc ++ (label_text str_float <$> placed)
    ∧ (∀ c, c ∈ coords →
         c ∈ placed
         ∨ Exists (λ o, ¬ far o (anchor c)) (occupied ++ (anchor <$> placed)))
    ∧ (occupied = [] → ∀ c coords', coords = c :: coords' →
         ∃ placed', placed = c :: placed').
Proof.
  induction coords as [|[[[clade sz] x] y] coords IH]; intros doc occupied.
  - exists []. simpl. rewrite app_nil_r. split; [done|]. split; [|done].
    intros c Hc. by apply elem_of_nil in Hc.
  - simpl. destruct (is_room occupied x y) eqn:Hroom.
    + destruct (IH (add_text str_float doc (upper clade) x y) (occupied ++ [(x, y)]))
        as (placed & Hcontent & Hall & _).
      exists ((clade, sz, x, y) :: placed). rewrite Hcontent. simpl.
      rewrite <-!app_assoc. split; [done|]. split.
      * intros c [->|Hc]%elem_of_cons; [left; by left|].
        destruct (Hall c Hc) as [?|Hex]; [left; by right|right].
        by rewrite <-app_assoc in Hex.
      * intros _ c coords' [= <- <-]. by eexists.
    + destruct (IH doc occupied) as (placed & Hcontent & Hall & _).
      exists placed. split; [done|]. split.
      * intros c [->|Hc]%elem_of_cons; [|by apply Hall].
        right. apply Exists_app. left. by apply is_room_false.
      * intros ->. done.
Qed.
End greedy.

(** X8.  The choice of [_draw_clades] is greedy and cannot be extended.  A
    ring with at least one entry gets the label of its first candidate in
    the order by decreasing size; every candidate that gets no label has
    its anchor closer than [LETTER_SPACING] to the anchor of a label that
    was placed; and the call changes nothing of the diagram but the
    content of the document, to which it only appends. *)
Theorem labels_are_greedy sin cos str_float (d : CircleDiagram) (level : Z)
    (all_clades : list (string * Q * Q)) :
  let candidates :=
    sort_by_size (clade_coords sin cos (center d) (ring_radius level) all_clades) in
  let d' := _draw_clades sin cos str_float d level all_clades in
  ∃ placed : list clade_coord,
    content (svg d') = content (svg d) ++ (label_text str_float <$> placed)
    ∧ (∀ c, c ∈ candidates →
         c ∈ placed
         ∨ ∃ p, p ∈ placed
                ∧ (dist2 (anchor p) (anchor c) < inject_Z (LETTER_SPACING ^ 2))%Q)
    ∧ (∀ c rest, candidates = c :: rest → ∃ placed', placed = c :: placed')
    ∧ template (svg d') = template (svg d)
    ∧ styles (svg d') = styles (svg d)
    ∧ ring_count d' = ring_count d
    ∧ center d' = center d
    ∧ diagram_clades d' = diagram_clades d
    ∧ clade_colours d' = clade_colours d.
Proof.
  intros candidates d'. unfold d', _draw_clades. fold candidates.
  destruct (place_greedy str_float candidates (svg d) []) as (placed & Hcontent & Hall & Hhead).
  destruct (place_frame str_float candidates (svg d) []) as [Htemplate Hstyles].
  destruct (place _ _ _ _) as [svg' occ']. simpl in *.
  exists placed. split; [done|]. split.
  - intros c Hc. destruct (Hall c Hc) as [?|Hex]; [by left|right].
    apply Exists_exists in Hex as (o & [p [-> Hp]]%list_elem_of_fmap & Hfar).
    exists p. split; [done|]. by apply Qnot_le_lt.
  - split; [by apply Hhead|]. done.
Qed.

(** ** CircleDiagram: colours and constructor *)

Lemma index_elem_of l x :
  x ∈ l →
  ∃ i, index l x = Return i
       ∧ 0 ≤ i < Z.of_nat (length l)
       ∧ l !! Z.to_nat i = Some x.
Proof.
  induction l as [|y l IH]; [by intros ?%elem_of_nil|].
  intros Hx. simpl index. case_decide as Hy.
  - subst y. exists 0. simpl. split; [done|]. split; [lia|done].
  - destruct IH as (i & Hi & Hrange & Hl); [set_solver|].
    rewrite Hi. exists (i + 1). split; [done|]. split; [simpl length; lia|].
    replace (Z.to_nat (i + 1)) with (S (Z.to_nat i)) by lia. done.
Qed.

Lemma index_not_elem_of l x : x ∉ l → index l x = Raise ValueError.
Proof.
  induction l as [|y l IH]; [done|]. intros Hx. simpl.
  rewrite decide_False by set_solver. rewrite IH by set_solver. done.
Qed.

Lemma index_lookup l x i : index l x = Return i → l !! Z.to_nat i = Some x ∧ 0 ≤ i.
Proof.
  revert i. induction l as [|y l IH]; intros i; simpl; [done|].
  case_decide as Hy.
  - intros [= <-]. by subst y.
  - destruct (index l x) as [j|] eqn:Hj; [|done]. intros [= <-].
    destruct (IH j eq_refl) as [Hl Hj0].
    replace (Z.to_nat (j + 1)) with (S (Z.to_nat j)) by lia. split; [done|lia].
Qed.

Lemma colour_for_clade_hue hls_to_rgb hex2 clades clade :
  _colour_for_clade hls_to_rgb hex2 clades clade
  = rbind (hue_of clades clade) (λ hue, Return (colour_of_hue hls_to_rgb hex2 hue)).
Proof.
  unfold _colour_for_clade, hue_of, colour_of_hue, mbind, result_bind.
  destruct (index clades clade) as [i|]; simpl; [|done].
  destruct (truediv _ _) as [hue|]; simpl; [|done].
  by destruct (hls_to_rgb hue COLOUR_LIGHTNESS 1%Q) as [[r g] b].
Qed.

Lemma hue_of_elem_of clades clade :
  clade ∈ clades →
  ∃ i, index clades clade = Return i
       ∧ hue_of clades clade = Return (inject_Z i / inject_Z (Z.of_nat (length clades)))%Q
       ∧ 0 ≤ i < Z.of_nat (length clades).
Proof.
  intros Hin. destruct (index_elem_of clades clade Hin) as (i & Hi & Hrange & _).
  exists i. split; [done|]. split; [|done].
  unfold hue_of. rewrite Hi. unfold mbind, result_bind. simpl.
  unfold truediv. rewrite decide_False by lia. done.
Qed.

(** X9.  The hue of a label.  For a label of the list, [_colour_for_clade]
    raises nothing, not even on a list of one label: the hue is
    [index / count] with [0 <= hue < 1], and the colour is made from that
    hue; two labels of the list that get the same hue are the same label.
    For a label that is not in the list the call raises [ValueError]. *)
Theorem hue_of_a_label hls_to_rgb hex2 (clades : list string) (clade : string) :
  (clade ∈ clades →
   ∃ hue, hue_of clades clade = Return hue
          ∧ (0 <= hue ∧ hue < 1)%Q
          ∧ _colour_for_clade hls_to_rgb hex2 clades clade
            = Return (colour_of_hue hls_to_rgb hex2 hue)
          ∧ (∀ clade' hue', hue_of clades clade' = Return hue' →
                            (hue' == hue)%Q → clade' = clade))
  ∧ (clade ∉ clades →
     _colour_for_clade hls_to_rgb hex2 clades clade = Raise ValueError).
Proof.
  split.
  - intros Hin. destruct (hue_of_elem_of clades clade Hin) as (i & Hi & Hhue & Hrange).
    assert (0 < inject_Z (Z.of_nat (length clades)))%Q as Hlen.
    { change 0%Q with (inject_Z 0). rewrite <-Zlt_Qlt. lia. }
    eexists. split; [exact Hhue|]. split; [|split].
    + split.
      * apply Qle_shift_div_l; [done|]. rewrite Qmult_0_l.
        change 0%Q with (inject_Z 0). rewrite <-Zle_Qle. lia.
      * apply Qlt_shift_div_r; [done|]. rewrite Qmult_1_l. rewrite <-Zlt_Qlt. lia.
    + by rewrite colour_for_clade_hue, Hhue.
    + intros clade' hue' Hhue' Heq. unfold hue_of in Hhue'.
      destruct (index clades clade') as [j|] eqn:Hj; [|done].
      unfold mbind, result_bind in Hhue'. simpl in Hhue'. unfold truediv in Hhue'.
      case_decide; [done|]. injection Hhue' as <-.
      assert (inject_Z j == inject_Z i)%Q as Hji.
      { apply (Qmult_inj_r _ _ (/ inject_Z (Z.of_nat (length clades)))).
        - intros H0. apply Qinv_lt_0_compat in Hlen. rewrite H0 in Hlen.
          by apply Qlt_irrefl in Hlen.
        - exact Heq. }
      assert (j = i) as -> by (by apply inject_Z_injective).
      destruct (index_lookup _ _ _ Hi) as [H1 _].
      destruct (index_lookup _ _ _ Hj) as [H2 _]. congruence.
  - intros Hnot. rewrite colour_for_clade_hue. unfold hue_of.
    by rewrite index_not_elem_of.
Qed.

Lemma hue_of_a_label_witness :
  ∃ hue, hue_of ["a"; "b"; "c"] "b" = Return hue ∧ (0 <= hue ∧ hue < 1)%Q.
Proof.
  destruct (hue_of_a_label (λ h _ _, (h, h, h)) (λ _, "00") ["a"; "b"; "c"] "b")
    as [H _].
  destruct H as (hue & Hhue & Hrange & _).
  - vm_compute. set_solver.
  - by exists hue.
Defined.


Section constructor.
Variable hls_to_rgb : Q → Q → Q → Q * Q * Q.
Variable hex2 : Q → string.



End constructor.


(** ** The geometry of a wedge *)





(** ** CircleDiagram.add_ring and the script *)

Section rings_drawn.
Variables sin cos : Q → Q.
Variable str_float : Q → string.

Lemma draw_clades_nil d level : _draw_clades sin cos str_float d level [] = d.
Proof. by destruct d. Qed.


End rings_drawn.



(** ** Svg: the constructor and the order of the document *)

Lemma append_empty_r (s : string) : s +:+ "" = s.
Proof. induction s as [|c s IH]; [done|]. rewrite append_cons. by f_equal. Qed.

Lemma append_length (a b : string) :
  String.length (a +:+ b) = (String.length a + String.length b)%nat.
Proof. induction a as [|c a IH]; [done|]. rewrite append_cons. simpl. by rewrite IH. Qed.

Lemma occurs_empty sep : sep ≠ "" → ¬ occurs sep "".
Proof.
  intros Hsep (before & after & Heq). apply (f_equal String.length) in Heq.
  rewrite !append_length in Heq. destruct sep; [done|]. simpl in Heq. lia.
Qed.

Lemma find_sep_before_free sep s : ∀ before after,
  sep ≠ "" → find_sep sep s = Some (before, after) → ¬ occurs sep before.
Proof.
  induction s as [|c s IH]; intros before after Hsep; rewrite find_sep_unfold.
  - destruct (strip_prefix sep "") as [rest|]; [|done].
    intros [= <- <-]. by apply occurs_empty.
  - destruct (strip_prefix sep (String c s)) as [rest|] eqn:Hp.
    + intros [= <- <-]. by apply occurs_empty.
    + destruct (find_sep sep s) as [[b a]|] eqn:Hf; [|done].
      intros [= <- <-] (x & y & Hxy).
      destruct x as [|c' x].
      * rewrite append_nil in Hxy. apply find_sep_Some in Hf.
        assert (strip_prefix sep (String c s) = Some (y +:+ sep +:+ a)) as Hp'.
        { apply strip_prefix_Some. rewrite Hf, <-append_cons, Hxy.
          by rewrite append_assoc. }
        congruence.
      * rewrite append_cons in Hxy. injection Hxy as <- Hb.
        apply (IH b a Hsep eq_refl). by exists x, y.
Qed.

Lemma find_sep_after_length sep s before after :
  sep ≠ "" → find_sep sep s = Some (before, after) →
  (String.length after < String.length s)%nat.
Proof.
  intros Hsep ->%find_sep_Some. rewrite !append_length.
  destruct sep; [done|]. simpl. lia.
Qed.

Lemma split_fuel_nonempty fuel sep s : split_fuel fuel sep s ≠ [].
Proof.
  rewrite split_fuel_unfold. destruct (find_sep sep s) as [[b a]|]; [|done].
  by destruct fuel.
Qed.

Lemma concat_cons sep x l :
  l ≠ [] → String.concat sep (x :: l) = x +:+ sep +:+ String.concat sep l.
Proof. by destruct l. Qed.

Lemma split_fuel_join sep fuel : ∀ s, String.concat sep (split_fuel fuel sep s) = s.
Proof.
  induction fuel as [|fuel IH]; intros s; rewrite split_fuel_unfold;
    destruct (find_sep sep s) as [[b a]|] eqn:Hf; try done.
  - by apply find_sep_Some in Hf.
  - rewrite concat_cons by apply split_fuel_nonempty.
    rewrite IH. by apply find_sep_Some in Hf.
Qed.

Lemma split_fuel_free sep fuel : ∀ s,
  sep ≠ "" → (String.length s ≤ fuel)%nat →
  Forall (λ piece, ¬ occurs sep piece) (split_fuel fuel sep s).
Proof.
  induction fuel as [|fuel IH]; intros s Hsep Hlen; rewrite split_fuel_unfold;
    destruct (find_sep sep s) as [[b a]|] eqn:Hf.
  - pose proof (find_sep_after_length _ _ _ _ Hsep Hf). lia.
  - constructor; [by apply find_sep_None|constructor].
  - constructor; [by eapply find_sep_before_free|].
    apply IH; [done|]. pose proof (find_sep_after_length _ _ _ _ Hsep Hf). lia.
  - constructor; [by apply find_sep_None|constructor].
Qed.

Lemma replace_pieces old new s :
  old ≠ "" →
  ∃ pieces,
    s = String.concat old pieces
    ∧ Forall (λ piece, ¬ occurs old piece) pieces
    ∧ replace old new s = String.concat new pieces.
Proof.
  intros Hold. exists (split_fuel (String.length s) old s).
  split; [by rewrite split_fuel_join|]. split; [by apply split_fuel_free|done].
Qed.

Lemma replace_absent old new s : ¬ occurs old s → replace old new s = s.
Proof.
  intros Hnone%find_sep_None. unfold replace.
  rewrite split_fuel_unfold, Hnone. done.
Qed.

(** X14.  The template of [Svg(height, width)].  The text of the template
    file is cut at the occurrences of [%height%] into pieces that hold no
    [%height%], and the pieces are joined again by the decimal number of
    the height; the result is treated in the same way for [%width%].  A
    template file with neither marker is kept as it is, and the new
    document has no style and no content. *)
Theorem template_of_Svg (template_file : string) (height width : Z) :
  (∃ pieces pieces',
     template_file = String.concat "%height%" pieces
     ∧ Forall (λ piece, ¬ occurs "%height%" piece) pieces
     ∧ String.concat (str_int height) pieces = String.concat "%width%" pieces'
     ∧ Forall (λ piece, ¬ occurs "%width%" piece) pieces'
     ∧ template (Svg_init template_file height width)
       = String.concat (str_int width) pieces')
  ∧ (¬ occurs "%height%" template_file → ¬ occurs "%width%" template_file →
     template (Svg_init template_file height width) = template_file)
  ∧ styles (Svg_init template_file height width) = []
  ∧ content (Svg_init template_file height width) = [].
Proof.
  split; [|split; [|done]].
  - destruct (replace_pieces "%height%" (str_int height) template_file)
      as (pieces & Hfile & Hfree & Hrep); [done|].
    destruct (replace_pieces "%width%" (str_int width)
                (replace "%height%" (str_int height) template_file))
      as (pieces' & Hfile' & Hfree' & Hrep'); [done|].
    exists pieces, pieces'. split; [done|]. split; [done|].
    split; [by rewrite <-Hrep|]. split; [done|]. exact Hrep'.
  - intros Hh Hw. unfold Svg_init. simpl.
    rewrite (replace_absent "%height%") by done. by apply replace_absent.
Qed.

Lemma template_of_Svg_witness :
  template (Svg_init "<svg>%style%%substance%</svg>" 4000 4000)
  = "<svg>%style%%substance%</svg>".
Proof.
  destruct (template_of_Svg "<svg>%style%%substance%</svg>" 4000 4000) as (_ & H & _).
  apply H; apply find_sep_None; vm_compute; reflexivity.
Defined.

Lemma concat_empty_cons x l : String.concat "" (x :: l) = x +:+ String.concat "" l.
Proof.
  destruct l as [|y l]; [by rewrite append_empty_r|].
  by rewrite concat_cons, append_nil.
Qed.

Lemma concat_empty_snoc l x : String.concat "" (l ++ [x]) = String.concat "" l +:+ x.
Proof.
  induction l as [|y l IH]; [done|].
  rewrite <-app_comm_cons, !concat_empty_cons, IH. by rewrite append_assoc.
Qed.

(** X15.  What is added to a document shows in the file written by [save]
    at the end of its block and does not change whether [save] succeeds.
    When [save] raises for a document, it raises the same after any
    [add_text], [add_path] or [add_styles].  When it writes
    [head middle tail], with the styles at the end of [head] and the
    content at the end of [middle], it writes after [add_text] or
    [add_path] the same text with the new element between [middle] and
    [tail], and after [add_styles] the same text with the new rule between
    [head] and [middle]. *)
Theorem save_after_additions str_float (doc : Svg) :
  (∀ e, Svg_save doc = Raise e →
     ∀ text x y d clazz selector decls,
       Svg_save (add_text str_float doc text x y) = Raise e
       ∧ Svg_save (add_path doc d clazz) = Raise e
       ∧ Svg_save (add_styles doc selector decls) = Raise e)
  ∧ (∀ out, Svg_save doc = Return out →
     ∃ head middle tail,
       out = head +:+ middle +:+ tail
       ∧ ∀ text x y d clazz selector decls,
           Svg_save (add_text str_float doc text x y)
           = Return (head +:+ middle
                     +:+ text_element (str_float x) (str_float y) text +:+ tail)
           ∧ Svg_save (add_path doc d clazz)
             = Return (head +:+ middle +:+ path_element d clazz +:+ tail)
           ∧ Svg_save (add_styles doc selector decls)
             = Return (head +:+ style_rule selector decls +:+ middle +:+ tail)).
Proof.
  assert (∀ doc', template doc' = template doc →
            match find_sep "%style%" (template doc) with
            | Some (part1, tmp) =>
                match find_sep "%style%" tmp, find_sep "%substance%" tmp with
                | None, Some (part2, part3) =>
                    match find_sep "%substance%" part3 with
                    | None =>
                        Svg_save doc'
                        = Return (part1 +:+ String.concat "" (styles doc') +:+ part2
                                  +:+ String.concat "" (content doc') +:+ part3)
                    | Some _ => Svg_save doc' = Raise ValueError
                    end
                | _, _ => Svg_save doc' = Raise ValueError
                end
            | None => Svg_save doc' = Raise ValueError
            end) as Hcases.
  { intros doc' <-. apply Svg_save_cases. }
  pose proof (Hcases doc eq_refl) as Hdoc.
  split.
  - intros e He text x y d clazz selector decls.
    pose proof (Hcases (add_text str_float doc text x y) eq_refl) as H1.
    pose proof (Hcases (add_path doc d clazz) eq_refl) as H2.
    pose proof (Hcases (add_styles doc selector decls) eq_refl) as H3.
    destruct (find_sep "%style%" (template doc)) as [[part1 tmp]|]; [|split_and!; congruence].
    destruct (find_sep "%style%" tmp) as [[]|]; [split_and!; congruence|].
    destruct (find_sep "%substance%" tmp) as [[part2 part3]|]; [|split_and!; congruence].
    destruct (find_sep "%substance%" part3) as [[]|]; [split_and!; congruence|congruence].
  - intros out Hout.
    destruct (find_sep "%style%" (template doc)) as [[part1 tmp]|]; [|congruence].
    destruct (find_sep "%style%" tmp) as [[]|]; [congruence|].
    destruct (find_sep "%substance%" tmp) as [[part2 part3]|]; [|congruence].
    destruct (find_sep "%substance%" part3) as [[]|]; [congruence|].
    exists (part1 +:+ String.concat "" (styles doc)),
           (part2 +:+ String.concat "" (content doc)), part3.
    split.
    { rewrite Hdoc in Hout. injection Hout as <-. by rewrite !append_assoc. }
    intros text x y d clazz selector decls.
    rewrite (Hcases (add_text str_float doc text x y) eq_refl).
    rewrite (Hcases (add_path doc d clazz) eq_refl).
    rewrite (Hcases (add_styles doc selector decls) eq_refl).
    unfold add_text, add_path, add_styles. simpl styles. simpl content.
    rewrite !concat_empty_snoc. fold (path_element d clazz).
    fold (style_rule selector decls).
    split_and!; f_equal; by rewrite !append_assoc.
Qed.

Lemma save_after_additions_witness :
  Svg_save (add_styles (mk_Svg "%substance%" [] []) "text" [("fill", "red")])
  = Raise ValueError.
Proof.
  destruct (save_after_additions (λ _, "0") (mk_Svg "%substance%" [] [])) as [H _].
  apply (H ValueError eq_refl "" 0%Q 0%Q "" "" "text" [("fill", "red")]).
Defined.
